(** * reactpy.core.events: event handlers, their adapter and their merge

    A shallow embedding of [src/py/reactpy/reactpy/core/events.py].

    Python objects live in a store ([Heap]); an object's identity is its
    address.  The functions of the module are state-passing computations over
    that store ([M]), which either return a value or raise an exception.
    What a function object does when it is called is given by a trace
    semantics ([sem], [dispatch]) over resumptions ([Coro]). *)

From stdpp Require Import base list strings.
From Stdlib Require Import ZArith Lia.

Set Warnings "-register-all".

(** ** Values, exceptions *)

(** Event data: the values a renderer hands to a handler. *)
Inductive Value :=
| VNone
| VBool (b : bool)
| VInt (n : Z)
| VStr (s : string)
| VList (xs : list Value).

(** [UserException] is any exception class of the user's that is not
    [StopIteration] or one of its subclasses. *)
Inductive Exc :=
| ValueError (msg : string)
| TypeError (msg : string)
| AttributeError (msg : string)
| StopIteration (msg : string)
| RuntimeError (msg : string)
| UserException (name : string) (msg : string)
| ExceptionGroup (msg : string) (excs : list Exc).

(** What leaves the frame of a coroutine: a [StopIteration] may not, and
    Python raises [RuntimeError] in its place (PEP 479). *)
Definition pep479 (e : Exc) : Exc :=
  match e with
  | StopIteration _ => RuntimeError "coroutine raised StopIteration"
  | _ => e
  end.

(** Addresses of objects in the store. *)
Abbreviation addr := nat.

(** ** Coroutines

    The body of an [async def], as the event loop sees it: a sequence of
    observable actions and suspension points that ends by returning or by
    raising.  [Suspend] is an [await] that really gives control back to the
    loop (a sleep, a pending future). *)
Inductive Coro (E : Type) :=
| Ret
| Fail (e : Exc)
| Emit (ev : E) (k : Coro E)
| Suspend (k : Coro E).

Arguments Ret {E}.
Arguments Fail {E} e.
Arguments Emit {E} ev k.
Arguments Suspend {E} k.

(** How a task of a task group ended. *)
Inductive Fate :=
| Completed
| Raised (e : Exc)
| Cancelled.

(** What a run leaves in the trace: every call with its call site, what the
    user's code did, and the end of every task of a task group. *)
Inductive Event :=
| ECall (caller : option addr) (callee : addr) (args : list Value)
| EUser (fn : addr) (payload : Value)
| ETaskDone (group : addr) (func : addr) (fate : Fate).

(** ** Objects *)

(** Function objects.  The first two are the user's callables; the others
    are the closures this module creates, with the objects they capture.

    A [def] runs to its end when called: it performs its actions and returns
    (its value is dropped by every caller here) or raises; one that cannot
    take the arguments it is given raises [TypeError] there.  An [async def]
    called with arguments it cannot take raises at the call ([inl]);
    otherwise the call only builds a coroutine ([inr]), whose body runs when
    it is awaited.

    A user's callable may be a bound method, [instance.method]: Python makes
    a new object at each access, and two of them are [==] when they are the
    same method of the same instance.  [method_of] is [Some (instance,
    method)] for these and [None] for a plain function, which is [==] to
    itself only. *)
Inductive FuncObj :=
| UserDef (method_of : option (nat * nat))
    (body : list Value -> list Value * option Exc)
| UserAsyncDef (method_of : option (nat * nat))
    (body : list Value -> Exc + Coro Value)
(* async def wrapper(data): await function( *data)     (line 146) *)
| wrapper_await_star (function : addr)
(* async def wrapper(data): function( *data)           (line 151) *)
| wrapper_call_star (function : addr)
(* async def wrapper(data): function(data)            (line 157) *)
| wrapper_call (function : addr)
(* async def await_all_event_handlers(data): ...      (line 213) *)
| await_all_event_handlers (functions : list addr).

(** [class EventHandler]: its four slots ([__weakref__] apart). *)
Record EventHandler := mkEventHandler {
  function : addr;
  prevent_default : bool;
  stop_propagation : bool;
  target : option string
}.

Inductive Obj :=
| OFunc (f : FuncObj)
| OHandler (h : EventHandler).

(** The store: the object at address [a] is [H !! a]; a new object goes to
    the end, and nothing in this module writes to an object after it has
    been built. *)
Abbreviation Heap := (list Obj).

(** ** Computations that may raise *)

Inductive Result (A : Type) :=
| Return (a : A)
| Raise (e : Exc).

Arguments Return {A} a.
Arguments Raise {A} e.

Definition M (A : Type) : Type := Heap -> Result A * Heap.

Definition ret {A} (a : A) : M A := fun H => (Return a, H).

Definition raise {A} (e : Exc) : M A := fun H => (Raise e, H).

Definition bind {A B} (m : M A) (k : A -> M B) : M B :=
  fun H =>
    match m H with
    | (Return a, H') => k a H'
    | (Raise e, H') => (Raise e, H')
    end.

Notation "x <- c1 ;; c2" := (bind c1 (fun x => c2))
  (at level 100, c1 at next level, right associativity).
Notation "c1 ;;; c2" := (bind c1 (fun _ => c2))
  (at level 100, right associativity).

(** A new object: its address is the first free one. *)
Definition new (o : Obj) : M addr := fun H => (Return (List.length H), H ++ [o]).

Definition read {A} (f : Heap -> A) : M A := fun H => (Return (f H), H).

(** [asyncio.iscoroutinefunction]: true of [async def] functions. *)
Definition iscoroutinefunction (H : Heap) (f : addr) : bool :=
  match H !! f with
  | Some (OFunc (UserDef _ _)) => false
  | Some (OFunc _) => true
  | _ => false
  end.

(** Attribute access on a handler; any other object has no such slot. *)
Definition get_handler (a : addr) : M EventHandler :=
  fun H =>
    match H !! a with
    | Some (OHandler h) => (Return h, H)
    | _ => (Raise (AttributeError "object has no such attribute"), H)
    end.

(** ** The module's functions *)

(** Lines 131-162. *)
Definition to_event_handler_function (function : addr) (positional_args : bool)
  : M addr :=
  is_coroutine <- read (fun H => iscoroutinefunction H function) ;;
  if positional_args then
    if is_coroutine then new (OFunc (wrapper_await_star function))
    else new (OFunc (wrapper_call_star function))
  else if negb is_coroutine then new (OFunc (wrapper_call function))
  else ret function.

(** [EventHandler.__init__], lines 100-110, with the allocation of [self]. *)
Definition EventHandler_init (function : addr)
    (stop_propagation prevent_default : bool) (target : option string)
  : M addr :=
  f <- to_event_handler_function function false ;;
  new (OHandler (mkEventHandler f prevent_default stop_propagation target)).

(** [event], lines 30-75, applied to a function ([setup]). *)
Definition event (function : addr) (stop_propagation prevent_default : bool)
  : M addr :=
  f <- to_event_handler_function function true ;;
  EventHandler_init f stop_propagation prevent_default None.

(** Lines 203-218. *)
Definition merge_event_handler_funcs (functions : list addr) : M addr :=
  match functions with
  | [] => raise (ValueError "No event handler functions to merge")
  | [f] => ret f
  | _ => new (OFunc (await_all_event_handlers functions))
  end.

Definition mismatch_msg : string :=
  "Cannot merge handlers - 'stop_propagation', 'prevent_default' or 'target' mismatch.".

(** The loop of lines 186-193. *)
Fixpoint check_handlers (stop_propagation_ prevent_default_ : bool)
    (target_ : option string) (event_handlers : list addr) : M unit :=
  match event_handlers with
  | [] => ret tt
  | handler :: rest =>
      h <- get_handler handler ;;
      if bool_decide (stop_propagation h ≠ stop_propagation_)
         || bool_decide (prevent_default h ≠ prevent_default_)
         || bool_decide (target h ≠ target_)
      then raise (ValueError mismatch_msg)
      else check_handlers stop_propagation_ prevent_default_ target_ rest
  end.

(** [[h.function for h in event_handlers]], line 196. *)
Fixpoint handler_functions (event_handlers : list addr) : M (list addr) :=
  match event_handlers with
  | [] => ret []
  | h :: rest =>
      x <- get_handler h ;;
      xs <- handler_functions rest ;;
      ret (function x :: xs)
  end.

(** Lines 165-200. *)
Definition merge_event_handlers (event_handlers : list addr) : M addr :=
  match event_handlers with
  | [] => raise (ValueError "No event handlers to merge")
  | [h] => ret h
  | first_handler :: _ =>
      first <- get_handler first_handler ;;
      check_handlers (stop_propagation first) (prevent_default first)
        (target first) event_handlers ;;;
      functions <- handler_functions event_handlers ;;
      f <- merge_event_handler_funcs functions ;;
      EventHandler_init f (stop_propagation first) (prevent_default first)
        (target first)
  end.

(** ** Running coroutines *)

Fixpoint cmap {E F} (f : E -> F) (c : Coro E) : Coro F :=
  match c with
  | Ret => Ret
  | Fail e => Fail e
  | Emit ev k => Emit (f ev) (cmap f k)
  | Suspend k => Suspend (cmap f k)
  end.

(** The actions of a coroutine that runs to its end, and how it ends
    ([None]: it returns). *)
Fixpoint events {E} (c : Coro E) : list E :=
  match c with
  | Ret | Fail _ => []
  | Emit ev k => ev :: events k
  | Suspend k => events k
  end.

Fixpoint outcome {E} (c : Coro E) : option Exc :=
  match c with
  | Ret => None
  | Fail e => Some e
  | Emit _ k | Suspend k => outcome k
  end.

Fixpoint size {E} (c : Coro E) : nat :=
  match c with
  | Ret | Fail _ => 0
  | Emit _ k | Suspend k => S (size k)
  end.

Fixpoint emits {E} (evs : list E) (k : Coro E) : Coro E :=
  match evs with
  | [] => k
  | ev :: evs' => Emit ev (emits evs' k)
  end.

(** The body of an [async def] in its frame: what it raises leaves the frame
    through [pep479]. *)
Fixpoint coroutine_frame {E} (c : Coro E) : Coro E :=
  match c with
  | Ret => Ret
  | Fail e => Fail (pep479 e)
  | Emit ev k => Emit ev (coroutine_frame k)
  | Suspend k => Suspend (coroutine_frame k)
  end.

(** One turn of a task: it runs, without being interrupted, up to its next
    suspension point or to its end. *)
Inductive TurnEnd :=
| Finished
| Failed (e : Exc)
| Suspended (k : Coro Event).

Fixpoint turn (c : Coro Event) : list Event * TurnEnd :=
  match c with
  | Ret => ([], Finished)
  | Fail e => ([], Failed e)
  | Emit ev k => let '(evs, t) := turn k in (ev :: evs, t)
  | Suspend k => ([], Suspended k)
  end.

(** ** Task groups

    [anyio.create_task_group] is not part of this repository; this is its
    documented behaviour.  [start_soon(func, data)] calls [func(data)] and
    makes a task of the coroutine it gets; leaving the [async with] block
    waits until every task has ended; a task that raises cancels the group:
    a task that waits at a suspension point gets [CancelledError] there; one
    that has been woken already, or has not run yet, runs on to its next
    suspension point first.  Every error raised leaves the block in one
    exception group (anyio 4; anyio 3 lets a single error through as it is).
    No task here catches the cancellation.

    Which of the ready tasks runs next is the event loop's choice, and so is
    whether a task of a cancelled group had been woken before the
    cancellation reached it: a [Scheduler] gives, for a pool, a position in
    it (taken modulo its length) and that answer.  asyncio's loop is
    first-in first-out. *)
Record Task := mkTask {
  task_func : addr;
  task_started : bool;
  task_coro : Coro Event
}.

Definition Scheduler := list Task -> nat * bool.

Definition pool_size (tasks : list Task) : nat :=
  sum_list (map (fun t => S (size (task_coro t))) tasks).

(** The turn of task [t]: what it does, and then either how it ended, with
    the group's new state, or what is left of it.  In a cancelled group a
    task that waits at a suspension point and had not been woken ends here,
    without running; any other task runs its turn.  A task that raises
    cancels the group, and its error is added to those collected. *)
Definition step_task (woken cancelled : bool) (errs : list Exc) (t : Task)
  : list Event * (Fate * bool * list Exc + Coro Event) :=
  if cancelled && task_started t && negb woken
  then ([], inl (Cancelled, cancelled, errs))
  else
    let '(evs, e) := turn (task_coro t) in
    match e with
    | Finished => (evs, inl (Completed, cancelled, errs))
    | Failed x => (evs, inl (Raised x, true, errs ++ [x]))
    | Suspended k => (evs, inr k)
    end.

(** What a task that has not run yet does in its first turn, up to its
    first suspension point. *)
Definition first_turn (t : Task) : list Event :=
  if task_started t then [] else (turn (task_coro t)).1.

(** The group waits, suspended, while its tasks take their turns; [fuel]
    bounds the turns, and [pool_size tasks] is enough. *)
Fixpoint run_group (fuel : nat) (pick : Scheduler) (group : addr)
    (tasks : list Task) (cancelled : bool) (errs : list Exc) : Coro Event :=
  match tasks with
  | [] =>
      match errs with
      | [] => Ret
      | _ => Fail (ExceptionGroup "unhandled errors in a TaskGroup" errs)
      end
  | t0 :: _ =>
      match fuel with
      | 0 => Ret
      | S fuel' =>
          let i := (pick tasks).1 mod List.length tasks in
          let t := default t0 (tasks !! i) in
          let rest := delete i tasks in
          let '(evs, r) := step_task (pick tasks).2 cancelled errs t in
          Suspend
            (emits evs
               match r with
               | inl (fate, cancelled', errs') =>
                   Emit (ETaskDone group (task_func t) fate)
                        (run_group fuel' pick group rest cancelled' errs')
               | inr k =>
                   run_group fuel' pick group
                     (rest ++ [mkTask (task_func t) true k]) cancelled errs
               end)
      end
  end.

(** ** What a call does

    A call performs some actions and then raises or returns; what an
    [async def] returns is a coroutine. *)
Inductive RetVal :=
| RNone
| RCoro (c : Coro Event).

Definition CallResult : Type := list Event * (Exc + RetVal).

Definition Den : Type := list Value -> CallResult.

(** The behaviour of the objects of a store, by address. *)
Abbreviation Env := (list Den).

(** [callee( *args)] at [caller] ([None]: the dispatcher, outside). *)
Definition apply (S : Env) (caller : option addr) (callee : addr)
    (args : list Value) : CallResult :=
  match S !! callee with
  | Some d => let '(evs, r) := d args in (ECall caller callee args :: evs, r)
  | None =>
      ([ECall caller callee args], inl (TypeError "object is not callable"))
  end.

(** [*data] in a call. *)
Definition unpack (data : Value) : Exc + list Value :=
  match data with
  | VList xs => inr xs
  | VStr s => inr (map (fun c => VStr (String c EmptyString))
                       (String.list_ascii_of_string s))
  | _ => inl (TypeError "argument after * must be an iterable")
  end.

(** An [async def] of one parameter, given what its body does: a call with
    one argument runs nothing and returns the coroutine, a call with any
    other number of arguments raises at once.  What the body raises leaves
    the coroutine through its frame, so a [StopIteration] raised under one
    of the wrappers below comes out as [RuntimeError]. *)
Definition async_def1 (body : Value -> Coro Event) : Den :=
  fun args =>
    match args with
    | [data] => ([], inr (RCoro (coroutine_frame (body data))))
    | _ => ([], inl (TypeError "takes 1 positional argument"))
    end.

(** The body of the wrapper of line 146: [await function( *data)]. *)
Definition wrapper_await_star_body (S : Env) (self function : addr)
    (data : Value) : Coro Event :=
  match unpack data with
  | inl e => Fail e
  | inr args =>
      let '(evs, r) := apply S (Some self) function args in
      emits evs
        match r with
        | inl e => Fail e
        | inr (RCoro c) => c
        | inr RNone =>
            Fail (TypeError "object can't be used in 'await' expression")
        end
  end.

(** The body of the wrapper of line 151: [function( *data)]. *)
Definition wrapper_call_star_body (S : Env) (self function : addr)
    (data : Value) : Coro Event :=
  match unpack data with
  | inl e => Fail e
  | inr args =>
      let '(evs, r) := apply S (Some self) function args in
      emits evs match r with inl e => Fail e | inr _ => Ret end
  end.

(** The body of the wrapper of line 157: [function(data)]. *)
Definition wrapper_call_body (S : Env) (self function : addr)
    (data : Value) : Coro Event :=
  let '(evs, r) := apply S (Some self) function [data] in
  emits evs match r with inl e => Fail e | inr _ => Ret end.

(** The loop of lines 215-216: the actions of the calls, the tasks made,
    and the exception that ended the loop, if one did. *)
Fixpoint start_all (S : Env) (self : addr) (functions : list addr)
    (data : Value) : list Event * list Task * option Exc :=
  match functions with
  | [] => ([], [], None)
  | func :: rest =>
      let '(evs, r) := apply S (Some self) func [data] in
      match r with
      | inl e => (evs, [], Some e)
      | inr RNone => (evs, [], Some (TypeError "Expected a coroutine"))
      | inr (RCoro c) =>
          let '(evs', tasks, err) := start_all S self rest data in
          (evs ++ evs', mkTask func false c :: tasks, err)
      end
  end.

(** Lines 213-216. *)
Definition await_all_event_handlers_body (pick : Scheduler) (S : Env)
    (self : addr) (functions : list addr) (data : Value) : Coro Event :=
  let '(evs, tasks, err) := start_all S self functions data in
  emits evs
    (run_group (pool_size tasks) pick self tasks
       (bool_decide (err ≠ None)) (option_list err)).

(** The behaviour of the object made at address [self], [S] being the
    behaviour of the objects that were there: a closure captures objects
    that exist when it is made. *)
Definition den (pick : Scheduler) (S : Env) (self : addr) (o : Obj) : Den :=
  match o with
  | OHandler _ =>
      fun _ => ([], inl (TypeError "'EventHandler' object is not callable"))
  | OFunc (UserDef _ body) =>
      fun args =>
        let '(vs, r) := body args in
        (map (EUser self) vs,
         match r with Some e => inl e | None => inr RNone end)
  | OFunc (UserAsyncDef _ body) =>
      fun args =>
        match body args with
        | inl e => ([], inl e)
        | inr c => ([], inr (RCoro (coroutine_frame (cmap (EUser self) c))))
        end
  | OFunc (wrapper_await_star f) => async_def1 (wrapper_await_star_body S self f)
  | OFunc (wrapper_call_star f) => async_def1 (wrapper_call_star_body S self f)
  | OFunc (wrapper_call f) => async_def1 (wrapper_call_body S self f)
  | OFunc (await_all_event_handlers fs) =>
      async_def1 (await_all_event_handlers_body pick S self fs)
  end.

Definition sem (pick : Scheduler) (H : Heap) : Env :=
  fold_left (fun S o => S ++ [den pick S (List.length S) o]) H [].

(** What the dispatcher sees of [await f(data)]. *)
Inductive DispatchResult :=
| ThrewSync (e : Exc)
| NotAwaitable
| Awaited (o : option Exc).

Definition dispatch (pick : Scheduler) (H : Heap) (f : addr)
    (data : list Value) : list Event * DispatchResult :=
  let '(evs, r) := apply (sem pick H) None f [VList data] in
  match r with
  | inl e => (evs, ThrewSync e)
  | inr RNone => (evs, NotAwaitable)
  | inr (RCoro c) => (evs ++ events c, Awaited (outcome c))
  end.

(** ** Reading a trace *)

(** Who issued an event: the caller of a call ([None]: the dispatcher), the
    user function at work, the task group. *)
Definition issuer (ev : Event) : option addr :=
  match ev with
  | ECall c _ _ => c
  | EUser f _ => Some f
  | ETaskDone g _ _ => Some g
  end.

(** The calls made by [caller], in order: callee and arguments. *)
Definition calls_by (caller : addr) (tr : list Event)
  : list (addr * list Value) :=
  omap (fun ev =>
          match ev with
          | ECall (Some c) f args =>
              if bool_decide (c = caller) then Some (f, args) else None
          | _ => None
          end) tr.

(** The arguments of every call of [callee], in order. *)
Definition calls_of (callee : addr) (tr : list Event) : list (list Value) :=
  omap (fun ev =>
          match ev with
          | ECall _ f args =>
              if bool_decide (f = callee) then Some args else None
          | _ => None
          end) tr.

(** The tasks of [group] that ended, in order: function and fate. *)
Definition tasks_done (group : addr) (tr : list Event) : list (addr * Fate) :=
  omap (fun ev =>
          match ev with
          | ETaskDone g f fate =>
              if bool_decide (g = group) then Some (f, fate) else None
          | _ => None
          end) tr.

(** ** [EventHandler.__eq__], lines 112-123 *)

Inductive Attr :=
| attr_function
| attr_prevent_default
| attr_stop_propagation
| attr_target.

Definition attr_name (a : Attr) : string :=
  match a with
  | attr_function => "function"
  | attr_prevent_default => "prevent_default"
  | attr_stop_propagation => "stop_propagation"
  | attr_target => "target"
  end.

(** The value of a slot. *)
Inductive AttrValue :=
| AFunction (f : addr)
| AFlag (b : bool)
| ATarget (t : option string).

(** [getattr(self, attr)]. *)
Definition getattr (self : EventHandler) (attr : Attr) : AttrValue :=
  match attr with
  | attr_function => AFunction (function self)
  | attr_prevent_default => AFlag (prevent_default self)
  | attr_stop_propagation => AFlag (stop_propagation self)
  | attr_target => ATarget (target self)
  end.

(** [getattr(other, attr, undefined)]: [None] is [undefined], a fresh
    object, equal to nothing else. *)
Definition getattr_default (other : Obj) (attr : Attr) : option AttrValue :=
  match other with
  | OHandler h => Some (getattr h attr)
  | OFunc _ => None
  end.

(** The instance and method of a bound method. *)
Definition bound_method (H : Heap) (a : addr) : option (nat * nat) :=
  match H !! a with
  | Some (OFunc (UserDef b _)) | Some (OFunc (UserAsyncDef b _)) => b
  | _ => None
  end.

(** [a == b] on callables: the same object, or two bound methods of the
    same instance and method; functions and the closures of this module
    have no [__eq__] of their own. *)
Definition callable_eq (H : Heap) (a b : addr) : bool :=
  bool_decide (a = b)
  || match bound_method H a, bound_method H b with
     | Some x, Some y => bool_decide (x = y)
     | _, _ => false
     end.

(** [x == y] on the values of slots: callables as above, flags and targets
    by value; values of different kinds are never equal. *)
Definition value_eq (H : Heap) (x y : AttrValue) : bool :=
  match x, y with
  | AFunction a, AFunction b => callable_eq H a b
  | AFlag a, AFlag b => bool_decide (a = b)
  | ATarget a, ATarget b => bool_decide (a = b)
  | _, _ => false
  end.

Fixpoint eq_loop (H : Heap) (self : EventHandler) (other : Obj)
    (attrs : list Attr) : bool :=
  match attrs with
  | [] => true
  | attr :: rest =>
      if negb (String.prefix "_" (attr_name attr)) then
        if negb match getattr_default other attr with
                | Some v => value_eq H v (getattr self attr)
                | None => false
                end
        then false
        else eq_loop H self other rest
      else eq_loop H self other rest
  end.

Definition EventHandler_eq (H : Heap) (self : EventHandler) (other : Obj)
  : bool :=
  eq_loop H self other
    [attr_function; attr_prevent_default; attr_stop_propagation; attr_target].

(** ** Well-formed stores

    The objects an object refers to were there when it was made, and the
    function of a handler went through [to_event_handler_function] in
    [__init__]. *)
Definition captured (o : Obj) : list addr :=
  match o with
  | OFunc (wrapper_await_star f)
  | OFunc (wrapper_call_star f)
  | OFunc (wrapper_call f) => [f]
  | OFunc (await_all_event_handlers fs) => fs
  | OFunc _ => []
  | OHandler h => [function h]
  end.

Definition wf_obj (H : Heap) (a : addr) (o : Obj) : bool :=
  forallb (fun f => bool_decide (f < a)) (captured o)
  && match o with
     | OHandler h => iscoroutinefunction H (function h)
     | OFunc _ => true
     end.

Definition wf_heap (H : Heap) : bool :=
  forallb (fun ao => wf_obj H ao.1 ao.2) (imap pair H).

(** The handlers at the addresses [hs]. *)
Definition handlers_at (H : Heap) (hs : list addr) (hl : list EventHandler)
  : Prop :=
  Forall2 (fun a h => H !! a = Some (OHandler h)) hs hl.

(** The test of lines 187-191. *)
Definition conflicts (first h : EventHandler) : Prop :=
  stop_propagation h ≠ stop_propagation first
  ∨ prevent_default h ≠ prevent_default first
  ∨ target h ≠ target first.

(** The names of the slots on which [h] differs from [first]. *)
Definition conflicting_fields (first h : EventHandler) : list string :=
  (if bool_decide (stop_propagation h ≠ stop_propagation first)
   then ["stop_propagation"] else [])
  ++ (if bool_decide (prevent_default h ≠ prevent_default first)
      then ["prevent_default"] else [])
  ++ (if bool_decide (target h ≠ target first) then ["target"] else []).

(** [needle in hay]. *)
Fixpoint occurs_in (needle hay : string) : bool :=
  String.prefix needle hay
  || match hay with
     | EmptyString => false
     | String _ hay' => occurs_in needle hay'
     end.

Definition exc_message (e : Exc) : string :=
  match e with
  | ValueError msg | TypeError msg | AttributeError msg
  | StopIteration msg | RuntimeError msg
  | UserException _ msg | ExceptionGroup msg _ => msg
  end.

Definition is_ValueError (e : Exc) : bool :=
  match e with ValueError _ => true | _ => false end.

(** ** Where events come from

    What the object at address [a] does involves objects made before it:
    it calls and starts lower addresses, and whoever acts under it is at
    [a] or lower. *)
Definition ev_ok (a : addr) (ev : Event) : Prop :=
  match ev with
  | ECall c f _ => f < a ∧ ∀ x, c = Some x → x ≤ a
  | EUser f _ => f ≤ a
  | ETaskDone g f _ => g ≤ a ∧ f < a
  end.

Definition coro_ok (a : addr) (c : Coro Event) : Prop :=
  Forall (ev_ok a) (events c).

Definition result_ok (a : addr) (r : CallResult) : Prop :=
  Forall (ev_ok a) r.1
  ∧ match r.2 with inr (RCoro c) => coro_ok a c | _ => True end.

Definition den_ok (a : addr) (d : Den) : Prop := ∀ args, result_ok a (d args).

Definition env_ok (S : Env) : Prop := ∀ b d, S !! b = Some d → den_ok b d.

Definition closed (H : Heap) : Prop :=
  ∀ a o, H !! a = Some o → Forall (fun f => f < a) (captured o).

(** ** The user's callables *)

Definition is_user (fo : FuncObj) : bool :=
  match fo with
  | UserDef _ _ | UserAsyncDef _ _ => true
  | _ => false
  end.

(** How the user's callable ends on [args], called and, for an
    [async def], awaited: the exception it raises, if any. *)
Definition user_result (fo : FuncObj) (args : list Value) : option Exc :=
  match fo with
  | UserDef _ body => (body args).2
  | UserAsyncDef _ body =>
      match body args with
      | inl e => Some e
      | inr c => pep479 <$> outcome c
      end
  | _ => None
  end.

(** The exception the call itself raises, when the arguments do not fit
    the parameters of an [async def]; a [def] runs at the call, and what it
    raises is its result. *)
Definition raises_at_call (fo : FuncObj) (args : list Value) : option Exc :=
  match fo with
  | UserAsyncDef _ body =>
      match body args with
      | inl e => Some e
      | inr _ => None
      end
  | _ => None
  end.

(** Whether the call [f( *args)] gives a coroutine: [f] is a coroutine
    function that takes these arguments. *)
Definition takes (H : Heap) (f : addr) (args : list Value) : bool :=
  match H !! f with
  | Some (OFunc (UserDef _ _)) => false
  | Some (OFunc (UserAsyncDef _ body)) =>
      match body args with inl _ => false | inr _ => true end
  | Some (OFunc _) => bool_decide (List.length args = 1)
  | _ => false
  end.

(** ** A store to try things on *)

(** asyncio's loop: the task that has waited longest runs next; a task of a
    cancelled group is found waiting. *)
Definition fifo : Scheduler := fun _ => (0, false).

Definition KeyError : Exc := UserException "KeyError" "missing".

(** Three [def]s and three [async def]s of a user, the handlers that
    [EventHandler] makes of some of them, and one with another flag. *)
Definition example_heap : Heap :=
  [ (* 0: def record( *args) *)
    OFunc (UserDef None (fun args => ([VList args], None)));
    (* 1: async def sleeper(data): sleeps, then says so *)
    OFunc (UserAsyncDef None
             (fun _ => inr (Suspend (Emit (VStr "slept") Ret))));
    (* 2: async def instant(data) *)
    OFunc (UserAsyncDef None (fun _ => inr (Emit (VStr "instant") Ret)));
    (* 3: def fails(data) *)
    OFunc (UserDef None (fun _ => ([], Some KeyError)));
    (* 4: async def fails_later(data): sleeps, then raises *)
    OFunc (UserAsyncDef None (fun _ => inr (Suspend (Fail KeyError))));
    (* 5, 6: EventHandler(record) *)
    OFunc (wrapper_call 0);
    OHandler (mkEventHandler 5 false false None);
    (* 7: EventHandler(sleeper) *)
    OHandler (mkEventHandler 1 false false None);
    (* 8: EventHandler(instant) *)
    OHandler (mkEventHandler 2 false false None);
    (* 9: EventHandler(instant, stop_propagation=True) *)
    OHandler (mkEventHandler 2 false true None) ].

Definition example_data : list Value := [VInt 1; VInt 2].

(** Another store: [async def zero()], which takes no argument; a [def]
    that raises [StopIteration]; and [view.on_click] read twice off one
    [view], an [async def] method, with the handlers made of the two. *)
Definition zero_body (args : list Value) : Exc + Coro Value :=
  match args with
  | [] => inr (Emit (VStr "zero") Ret)
  | _ => inl (TypeError "zero() takes 0 positional arguments but 1 was given")
  end.

Definition on_click_body (args : list Value) : Exc + Coro Value :=
  match args with
  | [data] => inr (Emit data Ret)
  | _ => inl (TypeError "on_click() takes 2 positional arguments")
  end.

Definition example_methods : Heap :=
  [ (* 0: async def zero() *)
    OFunc (UserAsyncDef None zero_body);
    (* 1: def stops(data): raise StopIteration *)
    OFunc (UserDef None (fun _ => ([], Some (StopIteration ""))));
    (* 2, 3: view.on_click, twice *)
    OFunc (UserAsyncDef (Some (7, 1)) on_click_body);
    OFunc (UserAsyncDef (Some (7, 1)) on_click_body);
    (* 4: EventHandler(view.on_click) *)
    OHandler (mkEventHandler 2 false false None);
    (* 5: EventHandler(view.on_click) *)
    OHandler (mkEventHandler 3 false false None) ].

(** ** More about traces and the user's code *)

(** What the user's code does on [args], to its end. *)
Definition user_events (fo : FuncObj) (args : list Value) : list Value :=
  match fo with
  | UserDef _ body => (body args).1
  | UserAsyncDef _ body =>
      match body args with
      | inl _ => []
      | inr c => events c
      end
  | _ => []
  end.

(** What the user function [fn] did, in order. *)
Definition actions_of (fn : addr) (tr : list Event) : list Value :=
  omap (fun ev =>
          match ev with
          | EUser f v => if bool_decide (f = fn) then Some v else None
          | _ => None
          end) tr.

(** What the merge compares, lines 182-184. *)
Definition flags (h : EventHandler) : bool * bool * option string :=
  (stop_propagation h, prevent_default h, target h).

(** What a reader of traces [q] gets from a coroutine that runs to its
    end, and whether it gets anything from a task (1) or not (0). *)
Definition heard {B} (q : Event -> option B) (c : Coro Event) : list B :=
  omap q (events c).

Definition loud {B} (q : Event -> option B) (t : Task) : nat :=
  match heard q (task_coro t) with
  | [] => 0
  | _ => 1
  end.

Definition loudness {B} (q : Event -> option B) (tasks : list Task) : nat :=
  sum_list (map (loud q) tasks).

(** The wrapper [event] puts around [fn], lines 143-154. *)
Definition star_wrapper (H : Heap) (fn : addr) : FuncObj :=
  if iscoroutinefunction H fn then wrapper_await_star fn
  else wrapper_call_star fn.

(** The coroutine started for a user's [async def] that takes [d] and
    returns: [c] is what its body does, [c'] what its task runs. *)
Definition started_for (H : Heap) (d : list Value) (f : addr)
    (c' : Coro Event) : Prop :=
  ∃ b body c, H !! f = Some (OFunc (UserAsyncDef b body))
              ∧ body [VList d] = inr c
              ∧ c' = coroutine_frame (cmap (EUser f) c)
              ∧ outcome c = None.

(** The errors of the tasks that raised, in the order the tasks ended. *)
Definition raised (dones : list (addr * Fate)) : list Exc :=
  omap (fun x => match x.2 with Raised e => Some e | _ => None end) dones.

(** How leaving the [async with] block ends when the errors collected are
    [errs]. *)
Definition group_outcome (errs : list Exc) : option Exc :=
  match errs with
  | [] => None
  | _ => Some (ExceptionGroup "unhandled errors in a TaskGroup" errs)
  end.

(** A task that ends as completed has a coroutine that returns, one that
    ends as raised has a coroutine that raises that. *)
Definition ends_as (c : Coro Event) (fate : Fate) : Prop :=
  match fate with
  | Completed => outcome c = None
  | Raised e => outcome c = Some e
  | Cancelled => True
  end.

(** A scheduler that finds every task of a cancelled group woken. *)
Definition eager : Scheduler := fun _ => (0, true).

(** * Properties *)

Ltac unfold_M :=
  unfold bind, ret, raise, read, new, get_handler in *; simpl in *.

(** ** The merge's checks *)

Section Checks.
Variable H : Heap.
Variable first : EventHandler.

Lemma conflicts_test (h : EventHandler) :
  bool_decide (stop_propagation h ≠ stop_propagation first)
  || bool_decide (prevent_default h ≠ prevent_default first)
  || bool_decide (target h ≠ target first) = true
  ↔ conflicts first h.
Proof.
  unfold conflicts.
  rewrite !orb_true_iff, !bool_decide_eq_true. tauto.
Qed.

Lemma check_handlers_agree (hs : list addr) (hl : list EventHandler) :
  handlers_at H hs hl →
  Forall (fun h => ¬ conflicts first h) hl →
  check_handlers (stop_propagation first) (prevent_default first)
    (target first) hs H = (Return tt, H).
Proof.
  induction 1 as [|a h hs hl Ha _ IH]; intros Hall; [done|].
  apply Forall_cons in Hall as [Hh Hall].
  simpl. unfold_M. rewrite Ha.
  destruct (_ || _) eqn:E; [|by apply IH].
  by apply conflicts_test in E.
Qed.

Lemma check_handlers_conflict (hs : list addr) (hl : list EventHandler) :
  handlers_at H hs hl →
  Exists (conflicts first) hl →
  check_handlers (stop_propagation first) (prevent_default first)
    (target first) hs H = (Raise (ValueError mismatch_msg), H).
Proof.
  induction 1 as [|a h hs hl Ha _ IH]; intros Hex.
  - by apply Exists_nil in Hex.
  - simpl. unfold_M. rewrite Ha.
    destruct (_ || _) eqn:E; [done|].
    apply Exists_cons in Hex as [Hh|Hex]; [|by apply IH].
    apply conflicts_test in Hh. congruence.
Qed.

Lemma handler_functions_at (hs : list addr) (hl : list EventHandler) :
  handlers_at H hs hl →
  handler_functions hs H = (Return (map function hl), H).
Proof.
  induction 1 as [|a h hs hl Ha _ IH]; [done|].
  simpl. unfold_M. by rewrite Ha, IH.
Qed.
End Checks.

Lemma first_agrees (first : EventHandler) : ¬ conflicts first first.
Proof. unfold conflicts. tauto. Qed.

Lemma handlers_at_length H hs hl :
  handlers_at H hs hl → List.length hs = List.length hl.
Proof. apply Forall2_length. Qed.

Lemma handlers_at_lt H hs hl :
  handlers_at H hs hl → Forall (fun a => a < List.length H) hs.
Proof.
  induction 1 as [|a h hs hl Ha _ IH]; constructor; [|done].
  by apply lookup_lt_Some in Ha.
Qed.

(** The slot names are in the message of the mismatch. *)
Lemma mismatch_msg_names (first h : EventHandler) :
  Forall (fun name => occurs_in name mismatch_msg = true)
         (conflicting_fields first h).
Proof.
  unfold conflicting_fields.
  repeat case_bool_decide; repeat constructor.
Qed.

(** C3. Merging nothing fails: [merge_event_handlers] of an empty sequence
    of handlers and [merge_event_handler_funcs] of an empty sequence of
    functions raise a [ValueError]; nothing is returned and the store is as
    it was. *)
Theorem merge_empty_raises (H : Heap) :
  merge_event_handlers [] H
    = (Raise (ValueError "No event handlers to merge"), H)
  ∧ merge_event_handler_funcs [] H
    = (Raise (ValueError "No event handler functions to merge"), H).
Proof. split; reflexivity. Qed.

(** C4. Merging one is the identity: [merge_event_handlers [h]] returns the
    object [h] and [merge_event_handler_funcs [f]] returns the object [f];
    no object is made. *)
Theorem merge_singleton_identity (H : Heap) (h f : addr) :
  merge_event_handlers [h] H = (Return h, H)
  ∧ merge_event_handler_funcs [f] H = (Return f, H).
Proof. split; reflexivity. Qed.

(** C6. A coroutine function given to [to_event_handler_function] with
    [positional_args=False] comes back as it is: the same object, and no
    wrapper is made. *)
Theorem async_function_returned_unchanged (H : Heap) (f : addr) :
  iscoroutinefunction H f = true →
  to_event_handler_function f false H = (Return f, H).
Proof.
  intros Hf. unfold to_event_handler_function. unfold_M. by rewrite Hf.
Qed.

Lemma callable_eq_refl (H : Heap) (a : addr) : callable_eq H a a = true.
Proof. unfold callable_eq. by rewrite bool_decide_true. Qed.

Lemma callable_eq_sym (H : Heap) (a b : addr) :
  callable_eq H a b = callable_eq H b a.
Proof.
  unfold callable_eq.
  destruct (bound_method H a), (bound_method H b);
    repeat case_bool_decide; simplify_eq; done.
Qed.

Lemma callable_eq_trans (H : Heap) (a b c : addr) :
  callable_eq H a b = true → callable_eq H b c = true →
  callable_eq H a c = true.
Proof.
  unfold callable_eq.
  destruct (bound_method H a) eqn:Ea, (bound_method H b) eqn:Eb,
           (bound_method H c) eqn:Ec;
    repeat case_bool_decide; simplify_eq; try done;
    rewrite ?Ea, ?Eb, ?Ec in *; simplify_eq; done.
Qed.

(** What the loop of [__eq__] computes. *)
Lemma EventHandler_eq_fields (H : Heap) (a b : EventHandler) :
  EventHandler_eq H a (OHandler b) = true
  ↔ callable_eq H (function b) (function a) = true
    ∧ stop_propagation a = stop_propagation b
    ∧ prevent_default a = prevent_default b
    ∧ target a = target b.
Proof.
  unfold EventHandler_eq. simpl.
  destruct a as [fa pa sa ta], b as [fb pb sb tb]. simpl.
  destruct (callable_eq H fb fa); simpl;
    repeat case_bool_decide; simpl; split; intros Hx;
      first [ discriminate | destruct Hx as (?&?&?&?) | idtac ];
      simplify_eq; try done.
Qed.

(** C7. Two handlers are equal exactly when their four public slots are:
    functions that are [==], the same two flags and the same target.  So
    handlers with the same function object, flags and target are equal, and
    a differing target alone makes them unequal. *)
Theorem EventHandler_eq_iff (H : Heap) (a b : EventHandler) :
  (EventHandler_eq H a (OHandler b) = true
   ↔ callable_eq H (function b) (function a) = true
     ∧ stop_propagation a = stop_propagation b
     ∧ prevent_default a = prevent_default b
     ∧ target a = target b)
  ∧ (function a = function b →
     stop_propagation a = stop_propagation b →
     prevent_default a = prevent_default b →
     target a = target b →
     EventHandler_eq H a (OHandler b) = true)
  ∧ (target a ≠ target b → EventHandler_eq H a (OHandler b) = false).
Proof.
  split; [apply EventHandler_eq_fields|]. split.
  - intros Hf Hs Hp Ht. apply EventHandler_eq_fields.
    rewrite Hf. by rewrite callable_eq_refl.
  - intros Hne. apply not_true_is_false. intros E.
    apply EventHandler_eq_fields in E. tauto.
Qed.

(** C2. Merging two or more handlers of which one differs from the first in
    [stop_propagation], [prevent_default] or [target] raises the
    [ValueError] of line 192; no handler is returned, the store is as it
    was, and whichever slots differ, their names are in the message. *)
Theorem merge_conflicting_raises (H : Heap) (hs : list addr)
    (first : EventHandler) (rest : list EventHandler) :
  handlers_at H hs (first :: rest) →
  Exists (conflicts first) rest →
  ∃ e, merge_event_handlers hs H = (Raise e, H)
       ∧ is_ValueError e = true
       ∧ Forall (fun h =>
                   Forall (fun name => occurs_in name (exc_message e) = true)
                          (conflicting_fields first h))
                (first :: rest).
Proof.
  intros Hat Hex.
  exists (ValueError mismatch_msg). split; [|split; [done|]].
  - pose proof (check_handlers_conflict H first hs (first :: rest) Hat) as Hc.
    inversion Hat as [|a0 h0 hs' hl' Ha0 Hat' E1 E2]; subst.
    inversion Hat' as [|a1 h1 hs'' hl'' Ha1 Hat'' E1 E2]; subst.
    { by apply Exists_nil in Hex. }
    unfold merge_event_handlers. unfold bind at 1. unfold get_handler at 1.
    rewrite Ha0. unfold bind at 1.
    rewrite Hc; [done|]. by apply Exists_cons_tl.
  - apply Forall_forall. intros h _. apply mismatch_msg_names.
Qed.

(** ** Coroutines *)

Section Coroutines.
Context {E : Type}.

Lemma events_emits (evs : list E) (k : Coro E) :
  events (emits evs k) = evs ++ events k.
Proof. induction evs as [|ev evs IH]; simpl; by rewrite ?IH. Qed.

Lemma outcome_emits (evs : list E) (k : Coro E) :
  outcome (emits evs k) = outcome k.
Proof. induction evs as [|ev evs IH]; simpl; by rewrite ?IH. Qed.

Lemma events_cmap {F} (f : E → F) (c : Coro E) :
  events (cmap f c) = map f (events c).
Proof. induction c; simpl; by rewrite ?IHc. Qed.

Lemma outcome_cmap {F} (f : E → F) (c : Coro E) :
  outcome (cmap f c) = outcome c.
Proof. induction c; simpl; by rewrite ?IHc. Qed.

Lemma events_frame (c : Coro E) : events (coroutine_frame c) = events c.
Proof. induction c; simpl; by rewrite ?IHc. Qed.

Lemma outcome_frame (c : Coro E) :
  outcome (coroutine_frame c) = pep479 <$> outcome c.
Proof. induction c; simpl; by rewrite ?IHc. Qed.
End Coroutines.

(** What a turn leaves of a coroutine. *)
Lemma turn_spec (c : Coro Event) :
  match turn c with
  | (evs, Finished) => events c = evs ∧ outcome c = None
  | (evs, Failed e) => events c = evs ∧ outcome c = Some e
  | (evs, Suspended k) =>
      events c = evs ++ events k ∧ outcome c = outcome k ∧ size k < size c
  end.
Proof.
  induction c as [|e|ev k IH|k IH]; simpl; try done.
  - destruct (turn k) as [evs [|e|k']]; simpl in *.
    + destruct IH as [-> ->]. done.
    + destruct IH as [-> ->]. done.
    + destruct IH as (-> & -> & Hlt). repeat split; try done; lia.
  - repeat split; try done; lia.
Qed.

(** ** The behaviour of a store *)

Section Semantics.
Variable pick : Scheduler.

Lemma sem_snoc (H : Heap) (o : Obj) :
  sem pick (H ++ [o])
  = sem pick H ++ [den pick (sem pick H) (List.length (sem pick H)) o].
Proof. unfold sem. by rewrite fold_left_app. Qed.

Lemma sem_length (H : Heap) : List.length (sem pick H) = List.length H.
Proof.
  induction H as [|o H IH] using rev_ind; [done|].
  rewrite sem_snoc, !length_app, IH. done.
Qed.

(** The behaviour of an object depends on the objects made before it. *)
Lemma sem_lookup (H : Heap) (a : addr) :
  sem pick H !! a = den pick (sem pick (take a H)) a <$> H !! a.
Proof.
  induction H as [|o H IH] using rev_ind; [done|].
  rewrite sem_snoc. destruct (decide (a < List.length H)) as [Hlt|Hge].
  - rewrite !lookup_app_l by (rewrite ?sem_length; lia).
    rewrite take_app_le by lia. done.
  - destruct (decide (a = List.length H)) as [->|Hne].
    + rewrite !lookup_app_r by (rewrite ?sem_length; lia).
      rewrite sem_length, Nat.sub_diag. simpl.
      rewrite take_app_length. done.
    + rewrite !lookup_ge_None_2; [done| |];
        rewrite ?length_app, ?sem_length; simpl; lia.
Qed.

Lemma sem_lookup_app (H H2 : Heap) (a : addr) :
  a < List.length H → sem pick (H ++ H2) !! a = sem pick H !! a.
Proof.
  intros Hlt. rewrite !sem_lookup.
  rewrite take_app_le by lia. by rewrite lookup_app_l.
Qed.

Lemma sem_lookup_new (H H2 : Heap) (o : Obj) :
  sem pick (H ++ o :: H2) !! List.length H
  = Some (den pick (sem pick H) (List.length H) o).
Proof.
  rewrite sem_lookup, take_app_length.
  rewrite lookup_app_r by lia. by rewrite Nat.sub_diag.
Qed.

Lemma apply_sem_app (H H2 : Heap) caller (f : addr) args :
  f < List.length H →
  apply (sem pick (H ++ H2)) caller f args
  = apply (sem pick H) caller f args.
Proof. intros Hlt. unfold apply. by rewrite sem_lookup_app. Qed.

(** Calling a coroutine function with one argument runs nothing of it and
    returns a coroutine. *)
Lemma apply_coroutine_function (H : Heap) caller (f : addr) (v : Value) :
  takes H f [v] = true →
  ∃ c, apply (sem pick H) caller f [v]
       = ([ECall caller f [v]], inr (RCoro c)).
Proof.
  unfold takes, apply. intros Hf.
  rewrite sem_lookup.
  destruct (H !! f) as [[fo|h]|]; [|done..].
  destruct fo as [b body|b body| | | |]; simpl in *; try done; eauto.
  destruct (body [v]); [done|eauto].
Qed.

Lemma takes_iscoroutinefunction (H : Heap) (f : addr) args :
  takes H f args = true → iscoroutinefunction H f = true.
Proof.
  unfold takes, iscoroutinefunction.
  destruct (H !! f) as [[fo|h]|]; [|done..]. by destruct fo.
Qed.

Lemma iscoroutinefunction_lt (H : Heap) (f : addr) :
  iscoroutinefunction H f = true → f < List.length H.
Proof.
  unfold iscoroutinefunction. intros Hf.
  destruct (H !! f) eqn:E; [|done]. by apply lookup_lt_Some in E.
Qed.

Lemma iscoroutinefunction_app (H H2 : Heap) (f : addr) :
  iscoroutinefunction H f = true →
  iscoroutinefunction (H ++ H2) f = true.
Proof.
  intros Hf. pose proof (iscoroutinefunction_lt _ _ Hf).
  unfold iscoroutinefunction in *. by rewrite lookup_app_l.
Qed.
End Semantics.

(** ** Task groups *)

Lemma pool_size_delete (tasks : list Task) (i : nat) (t : Task) :
  tasks !! i = Some t →
  pool_size tasks = S (size (task_coro t)) + pool_size (delete i tasks).
Proof.
  unfold pool_size. revert i.
  induction tasks as [|t' tasks IH]; intros [|i] Hi; simplify_eq/=; [done|].
  rewrite (IH i Hi). lia.
Qed.

Lemma pool_size_snoc (tasks : list Task) (t : Task) :
  pool_size (tasks ++ [t]) = pool_size tasks + S (size (task_coro t)).
Proof.
  unfold pool_size. induction tasks as [|t' tasks IH]; simpl; lia.
Qed.

(** The scheduler's choice is a task of the pool. *)
Lemma picked_task (pick : Scheduler) (t0 : Task) (ts : list Task) :
  let tasks := t0 :: ts in
  tasks !! ((pick tasks).1 mod List.length tasks)
  = Some (default t0 (tasks !! ((pick tasks).1 mod List.length tasks))).
Proof.
  intros tasks.
  destruct (tasks !! ((pick tasks).1 mod List.length tasks)) eqn:E; [done|].
  apply lookup_ge_None in E.
  pose proof (Nat.mod_upper_bound (pick tasks).1 (List.length tasks)).
  simpl in *. lia.
Qed.

Lemma step_task_spec (woken cancelled : bool) (errs : list Exc) (t : Task) :
  match step_task woken cancelled errs t with
  | (evs, inr k) =>
      events (task_coro t) = evs ++ events k
      ∧ outcome (task_coro t) = outcome k
      ∧ size k < size (task_coro t)
  | (evs, inl (fate, cancelled', errs')) =>
      (∃ more, events (task_coro t) = evs ++ more)
      ∧ match fate with
        | Completed =>
            events (task_coro t) = evs ∧ outcome (task_coro t) = None
            ∧ cancelled' = cancelled ∧ errs' = errs
        | Raised e =>
            outcome (task_coro t) = Some e
            ∧ cancelled' = true ∧ errs' = errs ++ [e]
        | Cancelled =>
            cancelled = true ∧ task_started t = true
            ∧ cancelled' = true ∧ errs' = errs
        end
  end.
Proof.
  unfold step_task.
  destruct (cancelled && task_started t && negb woken) eqn:Ec.
  { apply andb_true_iff in Ec as [Ec _].
    apply andb_true_iff in Ec as [-> ->]. split; [by eexists|done]. }
  pose proof (turn_spec (task_coro t)) as Ht.
  destruct (turn (task_coro t)) as [evs [|e|k]].
  - destruct Ht as [Hev Ho]. split; [exists []; by rewrite app_nil_r|done].
  - destruct Ht as [Hev Ho]. split; [exists []; by rewrite app_nil_r|done].
  - done.
Qed.

(** A task that has not run yet takes its first turn, whatever the state of
    the group. *)
Lemma step_task_first_turn (woken cancelled : bool) (errs : list Exc)
    (t : Task) :
  task_started t = false →
  (step_task woken cancelled errs t).1 = first_turn t.
Proof.
  intros Hs. unfold step_task, first_turn. rewrite Hs, andb_false_r. simpl.
  by destruct (turn (task_coro t)) as [evs [|e|k]].
Qed.

Section Groups.
Variable pick : Scheduler.
Variable g : addr.

Lemma run_group_nil fuel cancelled errs :
  run_group fuel pick g [] cancelled errs
  = match errs with
    | [] => Ret
    | _ => Fail (ExceptionGroup "unhandled errors in a TaskGroup" errs)
    end.
Proof. by destruct fuel. Qed.

(** One turn of the group. *)
Lemma run_group_turn fuel (t0 : Task) (ts : list Task) cancelled errs :
  ∃ i t w,
    (t0 :: ts) !! i = Some t
    ∧ run_group (S fuel) pick g (t0 :: ts) cancelled errs
      = Suspend
          (emits (step_task w cancelled errs t).1
             match (step_task w cancelled errs t).2 with
             | inl (fate, cancelled', errs') =>
                 Emit (ETaskDone g (task_func t) fate)
                   (run_group fuel pick g (delete i (t0 :: ts))
                      cancelled' errs')
             | inr k =>
                 run_group fuel pick g
                   (delete i (t0 :: ts) ++ [mkTask (task_func t) true k])
                   cancelled errs
             end).
Proof.
  exists ((pick (t0 :: ts)).1 mod List.length (t0 :: ts)),
    (default t0 ((t0 :: ts) !! ((pick (t0 :: ts)).1
                                mod List.length (t0 :: ts)))),
    (pick (t0 :: ts)).2.
  split; [apply (picked_task pick t0 ts)|].
  cbn [run_group]. by destruct (step_task _ _ _ _) as [evs r].
Qed.

(** [pool_size tasks] turns are enough: more fuel changes nothing, and the
    group never stops for want of it. *)
Lemma run_group_fuel fuel1 fuel2 (tasks : list Task) cancelled errs :
  pool_size tasks ≤ fuel1 →
  pool_size tasks ≤ fuel2 →
  run_group fuel1 pick g tasks cancelled errs
  = run_group fuel2 pick g tasks cancelled errs.
Proof.
  revert fuel2 tasks cancelled errs.
  induction fuel1 as [|fuel1 IH]; intros fuel2 [|t0 ts] cancelled errs H1 H2;
    try (by rewrite !run_group_nil);
    try (unfold pool_size in H1; simpl in H1; lia).
  destruct fuel2 as [|fuel2]; [unfold pool_size in H2; simpl in H2; lia|].
  cbn [run_group].
  pose proof (picked_task pick t0 ts) as Hi. cbn zeta in Hi.
  set (i := (pick (t0 :: ts)).1 mod List.length (t0 :: ts)) in *.
  set (w := (pick (t0 :: ts)).2) in *.
  set (t := default t0 ((t0 :: ts) !! i)) in *.
  pose proof (pool_size_delete _ _ _ Hi) as Hsize.
  pose proof (step_task_spec w cancelled errs t) as Hs.
  destruct (step_task w cancelled errs t) as [evs [[[fate c'] errs']|k]].
  - do 3 f_equal. apply IH; lia.
  - destruct Hs as (_ & _ & Hlt). do 2 f_equal.
    apply IH; rewrite pool_size_snoc; simpl; lia.
Qed.

(** What holds of every event of the tasks, and of the end of each,
    holds of every event of the group. *)
Lemma run_group_Forall (P : Event → Prop) fuel tasks cancelled errs :
  Forall (fun t => Forall P (events (task_coro t))
                   ∧ ∀ fate, P (ETaskDone g (task_func t) fate)) tasks →
  Forall P (events (run_group fuel pick g tasks cancelled errs)).
Proof.
  revert tasks cancelled errs.
  induction fuel as [|fuel IH]; intros [|t0 ts] cancelled errs Hall;
    try (rewrite run_group_nil; by destruct errs); [done|].
  destruct (run_group_turn fuel t0 ts cancelled errs)
    as (i & t & w & Hi & ->).
  pose proof (Forall_lookup_1 _ _ _ _ Hall Hi) as [Ht Hdone].
  pose proof (Forall_delete _ _ i Hall) as Hrest.
  pose proof (step_task_spec w cancelled errs t) as Hs.
  destruct (step_task w cancelled errs t) as [evs [[[fate c'] errs']|k]];
    simpl; rewrite events_emits; apply Forall_app.
  - destruct Hs as [[more Hev] _]. rewrite Hev in Ht.
    apply Forall_app in Ht as [Ht _]. split; [done|].
    simpl. constructor; [done|]. by apply IH.
  - destruct Hs as (Hev & _). rewrite Hev in Ht.
    apply Forall_app in Ht as [Ht Hk]. split; [done|].
    apply IH. apply Forall_app. split; [done|]. by repeat constructor.
Qed.

(** Every task of the group ends before the group does. *)
Lemma run_group_tasks_done fuel tasks cancelled errs :
  pool_size tasks ≤ fuel →
  Forall (fun t => tasks_done g (events (task_coro t)) = []) tasks →
  (tasks_done g (events (run_group fuel pick g tasks cancelled errs))).*1
  ≡ₚ task_func <$> tasks.
Proof.
  revert tasks cancelled errs.
  induction fuel as [|fuel IH]; intros [|t0 ts] cancelled errs Hfuel Hall;
    try (rewrite run_group_nil; by destruct errs).
  { unfold pool_size in Hfuel. simpl in Hfuel. lia. }
  destruct (run_group_turn fuel t0 ts cancelled errs)
    as (i & t & w & Hi & ->).
  pose proof (Forall_lookup_1 _ _ _ _ Hall Hi) as Ht.
  pose proof (Forall_delete _ _ i Hall) as Hrest.
  pose proof (pool_size_delete _ _ _ Hi) as Hsize.
  assert (Hperm : task_func <$> (t0 :: ts)
                  ≡ₚ task_func t :: (task_func <$> delete i (t0 :: ts))).
  { by rewrite (delete_Permutation _ _ _ Hi) at 1. }
  rewrite Hperm. clear Hperm.
  pose proof (step_task_spec w cancelled errs t) as Hs.
  unfold tasks_done in *.
  destruct (step_task w cancelled errs t) as [evs [[[fate c'] errs']|k]];
    simpl; rewrite events_emits, omap_app.
  - destruct Hs as [[more Hev] _]. rewrite Hev, omap_app in Ht.
    apply app_eq_nil in Ht as [-> _]. simpl.
    rewrite bool_decide_true by done. simpl.
    rewrite IH; [done|lia|done].
  - destruct Hs as (Hev & _ & Hlt). rewrite Hev, omap_app in Ht.
    apply app_eq_nil in Ht as [-> Hk]. simpl.
    rewrite IH.
    + rewrite fmap_app. simpl. by rewrite Permutation_app_comm.
    + rewrite pool_size_snoc. simpl. lia.
    + apply Forall_app. split; [done|]. by repeat constructor.
Qed.

(** Whatever the other tasks do, and whatever the scheduler answers, every
    task that has not run yet takes its first turn: the group does all that
    these turns do. *)
Lemma run_group_first_turns fuel tasks cancelled errs :
  pool_size tasks ≤ fuel →
  concat (first_turn <$> tasks)
  ⊆+ events (run_group fuel pick g tasks cancelled errs).
Proof.
  revert tasks cancelled errs.
  induction fuel as [|fuel IH]; intros [|t0 ts] cancelled errs Hfuel;
    try (rewrite run_group_nil; simpl; apply submseteq_nil_l).
  { unfold pool_size in Hfuel. simpl in Hfuel. lia. }
  destruct (run_group_turn fuel t0 ts cancelled errs)
    as (i & t & w & Hi & ->).
  pose proof (pool_size_delete _ _ _ Hi) as Hsize.
  assert (Hperm : concat (first_turn <$> (t0 :: ts))
                  ≡ₚ first_turn t
                     ++ concat (first_turn <$> delete i (t0 :: ts))).
  { by rewrite (delete_Permutation _ _ _ Hi) at 1. }
  rewrite Hperm. clear Hperm.
  assert (Hfirst : first_turn t ⊆+ (step_task w cancelled errs t).1).
  { destruct (task_started t) eqn:Est.
    - unfold first_turn. rewrite Est. apply submseteq_nil_l.
    - by rewrite step_task_first_turn. }
  pose proof (step_task_spec w cancelled errs t) as Hs.
  destruct (step_task w cancelled errs t) as [evs [[[fate c'] errs']|k]];
    simpl in *; rewrite events_emits; apply submseteq_app; [done| |done|].
  - simpl. apply submseteq_cons. apply IH. lia.
  - destruct Hs as (_ & _ & Hlt).
    etrans; [|apply IH; rewrite pool_size_snoc; simpl; lia].
    rewrite fmap_app, concat_app. apply submseteq_inserts_r. done.
Qed.

(** When no task raises, the group does all that its tasks do, nothing
    else, and returns. *)
Lemma run_group_all_complete fuel tasks :
  pool_size tasks ≤ fuel →
  Forall (fun t => outcome (task_coro t) = None) tasks →
  events (run_group fuel pick g tasks false [])
  ≡ₚ concat ((fun t => events (task_coro t)) <$> tasks)
     ++ ((fun t => ETaskDone g (task_func t) Completed) <$> tasks)
  ∧ outcome (run_group fuel pick g tasks false []) = None.
Proof.
  revert tasks.
  induction fuel as [|fuel IH]; intros [|t0 ts] Hfuel Hall;
    try (by rewrite run_group_nil).
  { unfold pool_size in Hfuel. simpl in Hfuel. lia. }
  destruct (run_group_turn fuel t0 ts false []) as (i & t & w & Hi & ->).
  pose proof (Forall_lookup_1 _ _ _ _ Hall Hi) as Ht.
  pose proof (Forall_delete _ _ i Hall) as Hrest.
  pose proof (pool_size_delete _ _ _ Hi) as Hsize.
  assert (Hperm :
    concat ((fun t => events (task_coro t)) <$> (t0 :: ts))
    ++ ((fun t => ETaskDone g (task_func t) Completed) <$> (t0 :: ts))
    ≡ₚ (events (task_coro t)
        ++ concat ((fun t => events (task_coro t)) <$> delete i (t0 :: ts)))
       ++ ETaskDone g (task_func t) Completed
          :: ((fun t => ETaskDone g (task_func t) Completed)
                <$> delete i (t0 :: ts))).
  { by rewrite (delete_Permutation _ _ _ Hi) at 1 2. }
  rewrite Hperm. clear Hperm.
  set (rest := delete i (t0 :: ts)) in *.
  pose proof (step_task_spec w false [] t) as Hs.
  destruct (step_task w false [] t) as [evs [[[fate c'] errs']|k]];
    simpl; rewrite events_emits, outcome_emits.
  - destruct fate as [|e|]; destruct Hs as [_ Hs].
    + destruct Hs as (Hev & _ & -> & ->).
      destruct (IH rest) as [IHev IHo]; [lia|done|].
      split; [|done]. simpl. rewrite IHev, Hev.
      rewrite <- !app_assoc. apply Permutation_app_head.
      apply Permutation_middle.
    + destruct Hs as (Ho & _). congruence.
    + by destruct Hs as (? & _).
  - destruct Hs as (Hev & Ho & Hlt).
    destruct (IH (rest ++ [mkTask (task_func t) true k])) as [IHev IHo].
    { rewrite pool_size_snoc. simpl. lia. }
    { apply Forall_app. split; [done|]. repeat constructor. simpl.
      congruence. }
    split; [|done]. rewrite IHev, Hev.
    rewrite !fmap_app, concat_app. simpl. rewrite app_nil_r.
    rewrite <- !app_assoc. apply Permutation_app_head.
    rewrite (Permutation_app_comm _ [_]). simpl.
    rewrite !app_assoc. apply Permutation_app_tail.
    apply Permutation_app_comm.
Qed.
End Groups.

(** ** Where events come from *)

Lemma ev_ok_mono (a b : addr) (ev : Event) : a ≤ b → ev_ok a ev → ev_ok b ev.
Proof.
  intros Hle. destruct ev as [c f args|f v|g' f fate]; simpl.
  - intros [Hf Hc]. split; [lia|]. intros x Hx. specialize (Hc x Hx). lia.
  - lia.
  - lia.
Qed.

Lemma Forall_ev_ok_mono (a b : addr) (evs : list Event) :
  a ≤ b → Forall (ev_ok a) evs → Forall (ev_ok b) evs.
Proof.
  intros Hle Hall. eapply Forall_impl; [exact Hall|].
  intros ev. by apply ev_ok_mono.
Qed.

Lemma coro_ok_emits (a : addr) (evs : list Event) (k : Coro Event) :
  Forall (ev_ok a) evs → coro_ok a k → coro_ok a (emits evs k).
Proof.
  intros Hevs Hk. unfold coro_ok. rewrite events_emits. by apply Forall_app.
Qed.

Lemma coro_ok_frame (a : addr) (c : Coro Event) :
  coro_ok a c → coro_ok a (coroutine_frame c).
Proof. unfold coro_ok. by rewrite events_frame. Qed.

Lemma omap_none {A B} (f : A → option B) (l : list A) :
  Forall (fun x => f x = None) l → omap f l = [].
Proof. induction 1 as [|x l Hx _ IH]; simpl; [done|]. by rewrite Hx. Qed.

(** Nothing that happens under an object made before [g] is a call by [g]
    or the end of a task of [g]; nothing that happens under [a] is a call
    of [a]. *)
Lemma calls_by_ok (a g : addr) (evs : list Event) :
  a < g → Forall (ev_ok a) evs → calls_by g evs = [].
Proof.
  intros Hlt Hall. apply omap_none.
  eapply Forall_impl; [exact Hall|].
  intros [[c|] f args|f v|g' f fate] Hev; simpl in *; try done.
  destruct Hev as [_ Hc]. specialize (Hc c eq_refl).
  rewrite bool_decide_false by lia. done.
Qed.

Lemma tasks_done_ok (a g : addr) (evs : list Event) :
  a < g → Forall (ev_ok a) evs → tasks_done g evs = [].
Proof.
  intros Hlt Hall. apply omap_none.
  eapply Forall_impl; [exact Hall|].
  intros [c f args|f v|g' f fate] Hev; simpl in *; try done.
  rewrite bool_decide_false by lia. done.
Qed.

Lemma calls_of_ok (a : addr) (evs : list Event) :
  Forall (ev_ok a) evs → calls_of a evs = [].
Proof.
  intros Hall. apply omap_none.
  eapply Forall_impl; [exact Hall|].
  intros [c f args|f v|g' f fate] Hev; simpl in *; try done.
  rewrite bool_decide_false by lia. done.
Qed.

Section Origins.
Variable pick : Scheduler.

Lemma apply_ok (S : Env) (self f : addr) (args : list Value) :
  env_ok S → f < self → result_ok self (apply S (Some self) f args).
Proof.
  intros HS Hlt. unfold apply, result_ok.
  destruct (S !! f) as [d|] eqn:Ed; simpl.
  - destruct (HS f d Ed args) as [Hevs Hr].
    destruct (d args) as [evs r]. simpl in *. split.
    + constructor; [split; [done|]; intros x [= <-]; lia|].
      eapply Forall_ev_ok_mono; [|done]. lia.
    + destruct r as [e|[|c]]; try done.
      eapply Forall_ev_ok_mono; [|exact Hr]. lia.
  - split; [|done].
    constructor; [|done]. split; [done|]. intros x [= <-]. lia.
Qed.

(** The coroutine a call returns is the callee's. *)
Lemma apply_coro_ok (S : Env) caller (f : addr) (args : list Value)
    (evs : list Event) (c : Coro Event) :
  env_ok S →
  apply S caller f args = (evs, inr (RCoro c)) → coro_ok f c.
Proof.
  intros HS. unfold apply.
  destruct (S !! f) as [d|] eqn:Ed; [|done].
  destruct (HS f d Ed args) as [_ Hr].
  destruct (d args) as [evs' r]. intros [= _ ->]. done.
Qed.

Lemma start_all_ok (S : Env) (self : addr) (fs : list addr) (data : Value) :
  env_ok S →
  Forall (fun f => f < self) fs →
  Forall (ev_ok self) (start_all S self fs data).1.1
  ∧ Forall (fun t => task_func t < self ∧ coro_ok self (task_coro t))
           (start_all S self fs data).1.2.
Proof.
  intros HS. induction 1 as [|f fs Hf _ IH]; simpl; [done|].
  destruct (apply_ok S self f [data] HS Hf) as [Hevs Hr].
  destruct (apply S (Some self) f [data]) as [evs [e|[|c]]]; simpl in *;
    try done.
  destruct (start_all S self fs data) as [[evs' tasks] err]. simpl in *.
  destruct IH as [IH1 IH2]. split; [by apply Forall_app|].
  constructor; [|done]. done.
Qed.

Lemma den_ok_new (S : Env) (self : addr) (o : Obj) :
  env_ok S →
  Forall (fun f => f < self) (captured o) →
  den_ok self (den pick S self o).
Proof.
  intros HS Hcap args. unfold result_ok.
  destruct o as [[b body|b body|f|f|f|fs]|h]; simpl in *.
  - destruct (body args) as [vs r]. simpl. split.
    + induction vs; constructor; simpl; done.
    + by destruct r.
  - destruct (body args) as [e|c]; [done|]. split; [done|].
    apply coro_ok_frame. unfold coro_ok. rewrite events_cmap.
    induction (events c); constructor; simpl; done.
  - apply Forall_cons in Hcap as [Hf _].
    destruct args as [|data [|]]; simpl; try done. split; [done|].
    apply coro_ok_frame. unfold wrapper_await_star_body.
    destruct (unpack data) as [e|xs]; [by constructor|].
    destruct (apply_ok S self f xs HS Hf) as [Hevs Hr].
    destruct (apply S (Some self) f xs) as [evs r]. simpl in *.
    apply coro_ok_emits; [done|].
    destruct r as [e|[|c]]; try done; by constructor.
  - apply Forall_cons in Hcap as [Hf _].
    destruct args as [|data [|]]; simpl; try done. split; [done|].
    apply coro_ok_frame. unfold wrapper_call_star_body.
    destruct (unpack data) as [e|xs]; [by constructor|].
    destruct (apply_ok S self f xs HS Hf) as [Hevs Hr].
    destruct (apply S (Some self) f xs) as [evs r]. simpl in *.
    apply coro_ok_emits; [done|].
    destruct r as [e|r]; by constructor.
  - apply Forall_cons in Hcap as [Hf _].
    destruct args as [|data [|]]; simpl; try done. split; [done|].
    apply coro_ok_frame. unfold wrapper_call_body.
    destruct (apply_ok S self f [data] HS Hf) as [Hevs Hr].
    destruct (apply S (Some self) f [data]) as [evs r]. simpl in *.
    apply coro_ok_emits; [done|].
    destruct r as [e|r]; by constructor.
  - destruct args as [|data [|]]; simpl; try done. split; [done|].
    apply coro_ok_frame. unfold await_all_event_handlers_body.
    destruct (start_all_ok S self fs data HS Hcap) as [Hevs Htasks].
    destruct (start_all S self fs data) as [[evs tasks] err]. simpl in *.
    apply coro_ok_emits; [done|].
    apply run_group_Forall.
    eapply Forall_impl; [exact Htasks|].
    intros t [Hlt Ht]. split; [done|]. intros fate. simpl. lia.
  - done.
Qed.

Lemma closed_snoc (H : Heap) (o : Obj) :
  closed (H ++ [o]) →
  closed H ∧ Forall (fun f => f < List.length H) (captured o).
Proof.
  intros Hc. split.
  - intros a o' Ha. apply (Hc a o'). by apply lookup_app_l_Some.
  - apply (Hc (List.length H) o). by apply list_lookup_middle.
Qed.

Lemma sem_ok (H : Heap) : closed H → env_ok (sem pick H).
Proof.
  induction H as [|o H IH] using rev_ind; [by intros _ b d|].
  intros [Hc Ho]%closed_snoc. specialize (IH Hc).
  rewrite sem_snoc, sem_length. intros b d Hb.
  apply lookup_app_Some in Hb as [Hb|[Hge Hb]]; [by apply (IH b)|].
  rewrite sem_length in Hge, Hb.
  apply list_lookup_singleton_Some in Hb as [Hb <-].
  assert (b = List.length H) as -> by lia.
  by apply den_ok_new.
Qed.
End Origins.

(** ** Well-formed stores *)

Lemma wf_heap_lookup (H : Heap) (a : addr) (o : Obj) :
  wf_heap H = true → H !! a = Some o → wf_obj H a o = true.
Proof.
  unfold wf_heap. intros Hwf Ha.
  rewrite forallb_forall in Hwf. apply (Hwf (a, o)).
  apply list_elem_of_In, elem_of_lookup_imap. eauto.
Qed.

Lemma wf_heap_closed (H : Heap) : wf_heap H = true → closed H.
Proof.
  intros Hwf a o Ha.
  pose proof (wf_heap_lookup H a o Hwf Ha) as Ho.
  unfold wf_obj in Ho. apply andb_true_iff in Ho as [Ho _].
  rewrite forallb_forall in Ho. apply Forall_forall.
  intros f Hf. apply list_elem_of_In, Ho in Hf.
  by apply bool_decide_eq_true in Hf.
Qed.

Lemma wf_heap_handler (H : Heap) (a : addr) (h : EventHandler) :
  wf_heap H = true →
  H !! a = Some (OHandler h) →
  iscoroutinefunction H (function h) = true.
Proof.
  intros Hwf Ha.
  pose proof (wf_heap_lookup H a _ Hwf Ha) as Ho.
  unfold wf_obj in Ho. by apply andb_true_iff in Ho as [_ Ho].
Qed.

(** ** Calls *)

Section Calls.
Variable pick : Scheduler.

Lemma apply_new (H H2 : Heap) (o : Obj) caller (args : list Value) :
  apply (sem pick (H ++ o :: H2)) caller (List.length H) args
  = (ECall caller (List.length H) args
       :: (den pick (sem pick H) (List.length H) o args).1,
     (den pick (sem pick H) (List.length H) o args).2).
Proof.
  unfold apply. rewrite sem_lookup_new.
  by destruct (den _ _ _ _ _) as [evs r].
Qed.

Lemma apply_UserDef (H : Heap) (fn : addr) b body caller args :
  H !! fn = Some (OFunc (UserDef b body)) →
  apply (sem pick H) caller fn args
  = (ECall caller fn args :: map (EUser fn) (body args).1,
     match (body args).2 with Some e => inl e | None => inr RNone end).
Proof.
  intros Hfn. unfold apply. rewrite sem_lookup, Hfn. simpl.
  by destruct (body args) as [vs r].
Qed.

Lemma apply_UserAsyncDef (H : Heap) (fn : addr) b body caller args :
  H !! fn = Some (OFunc (UserAsyncDef b body)) →
  apply (sem pick H) caller fn args
  = ([ECall caller fn args],
     match body args with
     | inl e => inl e
     | inr c => inr (RCoro (coroutine_frame (cmap (EUser fn) c)))
     end).
Proof.
  intros Hfn. unfold apply. rewrite sem_lookup, Hfn. simpl.
  by destruct (body args).
Qed.

(** A call of [fn] is one call of [fn]. *)
Lemma calls_of_apply (S : Env) caller (fn : addr) (args : list Value) :
  env_ok S →
  calls_of fn (apply S caller fn args).1 = [args]
  ∧ ∀ c, (apply S caller fn args).2 = inr (RCoro c) →
         calls_of fn (events c) = [].
Proof.
  intros HS. unfold apply.
  destruct (S !! fn) as [d|] eqn:Ed.
  - destruct (HS fn d Ed args) as [Hevs Hr].
    destruct (d args) as [evs r]. simpl in *.
    rewrite bool_decide_true by done.
    fold (calls_of fn evs). rewrite calls_of_ok by done.
    split; [done|]. intros c ->. by apply calls_of_ok.
  - simpl. rewrite bool_decide_true by done. split; [done|]. intros c [=].
Qed.

Lemma calls_of_app (fn : addr) (tr1 tr2 : list Event) :
  calls_of fn (tr1 ++ tr2) = calls_of fn tr1 ++ calls_of fn tr2.
Proof. apply omap_app. Qed.

Lemma calls_of_other caller (f fn : addr) args (tr : list Event) :
  f ≠ fn → calls_of fn (ECall caller f args :: tr) = calls_of fn tr.
Proof. intros Hne. unfold calls_of. simpl. by rewrite bool_decide_false. Qed.
End Calls.

Arguments calls_of : simpl never.
Arguments calls_by : simpl never.
Arguments tasks_done : simpl never.

(** C5. The function [to_event_handler_function(fn, positional_args)]
    returns, applied to the event data [d], calls [fn] once: with the
    elements of [d] as its arguments when [positional_args] is true
    ([fn( *d)]), with [d] as its one argument when it is false ([fn(d)]). *)
Theorem adapter_passes_arguments (pick : Scheduler) (H : Heap) (fn : addr)
    (fo : FuncObj) (positional_args : bool) (d : list Value) :
  wf_heap H = true →
  H !! fn = Some (OFunc fo) →
  ∃ w H',
    to_event_handler_function fn positional_args H = (Return w, H')
    ∧ calls_of fn (dispatch pick H' w d).1
      = [if positional_args then d else [VList d]].
Proof.
  intros Hwf Hfn.
  pose proof (sem_ok pick H (wf_heap_closed H Hwf)) as HS.
  pose proof (lookup_lt_Some _ _ _ Hfn) as Hlt.
  assert (Hw : ∀ args r,
    calls_of fn (events (emits (apply (sem pick H) (Some (List.length H)) fn args).1 r)) = [args] ++ calls_of fn (events r)).
  { intros args r. rewrite events_emits, calls_of_app.
    by destruct (calls_of_apply (sem pick H) (Some (List.length H)) fn args HS)
      as [-> _]. }
  unfold to_event_handler_function, dispatch. unfold_M.
  destruct positional_args; [destruct (iscoroutinefunction H fn) eqn:Eco|
                             destruct (iscoroutinefunction H fn) eqn:Eco];
    simpl.
  - eexists _, _. split; [done|].
    rewrite (apply_new pick H [] _ None). simpl.
    rewrite calls_of_other by lia. rewrite events_frame.
    unfold wrapper_await_star_body. simpl.
    destruct (calls_of_apply (sem pick H) (Some (List.length H)) fn d HS)
      as [_ Hc].
    specialize (Hw d).
    destruct (apply (sem pick H) (Some (List.length H)) fn d) as [evs r].
    simpl in *. rewrite Hw.
    destruct r as [e|[|c]]; simpl; try done. by rewrite (Hc c).
  - eexists _, _. split; [done|].
    rewrite (apply_new pick H [] _ None). simpl.
    rewrite calls_of_other by lia. rewrite events_frame.
    unfold wrapper_call_star_body. simpl.
    specialize (Hw d).
    destruct (apply (sem pick H) (Some (List.length H)) fn d) as [evs r].
    simpl in *. rewrite Hw. by destruct r.
  - eexists _, _. split; [done|].
    destruct (calls_of_apply (sem pick H) None fn [VList d] HS) as [Hc1 Hc2].
    destruct (apply (sem pick H) None fn [VList d]) as [evs r].
    simpl in *. destruct r as [e|[|c]]; simpl; try done.
    rewrite calls_of_app, Hc1, (Hc2 c); done.
  - eexists _, _. split; [done|].
    rewrite (apply_new pick H [] _ None). simpl.
    rewrite calls_of_other by lia. rewrite events_frame.
    unfold wrapper_call_body.
    specialize (Hw [VList d]).
    destruct (apply (sem pick H) (Some (List.length H)) fn [VList d])
      as [evs r].
    simpl in *. rewrite Hw. by destruct r.
Qed.

(** C8. Applying the function [to_event_handler_function] returns for a
    user's callable, [def] or [async def], in either mode, raises at the
    call in one case only: the callable is an [async def], returned
    unchanged ([positional_args] false), that cannot take the data as its
    one argument; the call then raises what binding the argument raises.
    In every other case the call returns an awaitable, and the result of
    awaiting it is the result of the user's callable on the arguments it was
    given: an exception the callable raises is the exception the awaitable
    fails with, except that [StopIteration] leaves a coroutine as the
    [RuntimeError] "coroutine raised StopIteration". *)
Theorem adapter_propagates_exceptions (pick : Scheduler) (H : Heap)
    (fn : addr) (fo : FuncObj) (positional_args : bool) (d : list Value) :
  H !! fn = Some (OFunc fo) →
  is_user fo = true →
  ∃ w H',
    to_event_handler_function fn positional_args H = (Return w, H')
    ∧ (dispatch pick H' w d).2
      = match (if positional_args then None
               else raises_at_call fo [VList d]) with
        | Some e => ThrewSync e
        | None =>
            Awaited (pep479 <$> user_result fo (if positional_args then d
                                                else [VList d]))
        end.
Proof.
  intros Hfn Hu.
  unfold to_event_handler_function, dispatch. unfold_M.
  unfold iscoroutinefunction. rewrite Hfn.
  destruct fo as [b body|b body| | | |]; try done; destruct positional_args;
    simpl; eexists _, _; (split; [done|]).
  - rewrite (apply_new pick H [] _ None). simpl. rewrite outcome_frame.
    unfold wrapper_call_star_body. simpl.
    rewrite (apply_UserDef pick H fn b body) by done. simpl.
    rewrite outcome_emits. by destruct (body d).2.
  - rewrite (apply_new pick H [] _ None). simpl. rewrite outcome_frame.
    unfold wrapper_call_body.
    rewrite (apply_UserDef pick H fn b body) by done. simpl.
    rewrite outcome_emits. by destruct (body [VList d]).2.
  - rewrite (apply_new pick H [] _ None). simpl. rewrite outcome_frame.
    unfold wrapper_await_star_body. simpl.
    rewrite (apply_UserAsyncDef pick H fn b body) by done. simpl.
    destruct (body d) as [e|c]; simpl; [done|].
    rewrite outcome_frame, outcome_cmap.
    destruct (outcome c) as [e|]; simpl; [|done]. by destruct e.
  - rewrite (apply_UserAsyncDef pick H fn b body) by done. simpl.
    destruct (body [VList d]) as [e|c]; simpl; [done|].
    rewrite outcome_frame, outcome_cmap.
    destruct (outcome c) as [e|]; simpl; [|done]. by destruct e.
Qed.

(** ** The merge *)

(** What a successful merge of two or more handlers makes. *)
Lemma merge_event_handlers_agree (H : Heap) (hs : list addr)
    (first : EventHandler) (rest : list EventHandler) :
  handlers_at H hs (first :: rest) →
  rest ≠ [] →
  Forall (fun h => ¬ conflicts first h) rest →
  merge_event_handlers hs H
  = (Return (S (List.length H)),
     H ++ [OFunc (await_all_event_handlers (map function (first :: rest)));
           OHandler (mkEventHandler (List.length H) (prevent_default first)
                       (stop_propagation first) (target first))]).
Proof.
  intros Hat Hrest Hagree.
  pose proof (check_handlers_agree H first hs (first :: rest) Hat) as Hc.
  pose proof (handler_functions_at H hs (first :: rest) Hat) as Hf.
  inversion Hat as [|a0 h0 hs' hl' Ha0 Hat' E1 E2]; subst.
  inversion Hat' as [|a1 h1 hs'' hl'' Ha1 Hat'' E1 E2]; subst; [done|].
  unfold merge_event_handlers.
  unfold bind at 1. unfold get_handler at 1. rewrite Ha0.
  unfold bind at 1. rewrite Hc by (constructor; [apply first_agrees|done]).
  unfold bind at 1. rewrite Hf.
  unfold EventHandler_init, to_event_handler_function. unfold_M.
  unfold iscoroutinefunction. rewrite list_lookup_middle by done.
  simpl. rewrite length_app, Nat.add_1_r, <- app_assoc. done.
Qed.

(** C9. A successful merge of two or more handlers makes a new handler: an
    object that was not in the store, so none of the handlers given, which
    are left as they were; its function is the function that
    [merge_event_handler_funcs] makes of the handlers' functions, in their
    order, and its flags and target are those of the first handler. *)
Theorem merge_builds_new_handler (H : Heap) (hs : list addr)
    (first : EventHandler) (rest : list EventHandler) :
  handlers_at H hs (first :: rest) →
  rest ≠ [] →
  Forall (fun h => ¬ conflicts first h) rest →
  ∃ m fm H',
    merge_event_handlers hs H = (Return m, H')
    ∧ H !! m = None ∧ (m ∉ hs)
    ∧ (∀ a o, H !! a = Some o → H' !! a = Some o)
    ∧ H' !! m = Some (OHandler (mkEventHandler fm (prevent_default first)
                                  (stop_propagation first) (target first)))
    ∧ H' !! fm = Some (OFunc (await_all_event_handlers
                                (map function (first :: rest))))
    ∧ (∃ Hf, merge_event_handler_funcs (map function (first :: rest)) H
             = (Return fm, Hf)
             ∧ Hf !! fm = H' !! fm).
Proof.
  intros Hat Hrest Hagree.
  eexists _, _, _. split; [by apply merge_event_handlers_agree|].
  split; [apply lookup_ge_None; lia|]. split.
  { intros Hin. pose proof (handlers_at_lt _ _ _ Hat) as Hlt.
    rewrite Forall_forall in Hlt. apply Hlt in Hin. lia. }
  split; [intros a o Ha; by apply lookup_app_l_Some|].
  split.
  { rewrite lookup_app_r by lia.
    by replace (S (List.length H) - List.length H) with 1 by lia. }
  split; [by apply list_lookup_middle|].
  destruct rest as [|h1 rest]; [done|].
  eexists. split; [reflexivity|].
  rewrite !list_lookup_middle; done.
Qed.

(** ** Dispatching a merged function *)

Lemma calls_by_singletons (g : addr) (tr : list Event) :
  Forall (fun ev => calls_by g [ev] = []) tr → calls_by g tr = [].
Proof.
  induction 1 as [|ev tr Hev _ IH]; [done|].
  change (ev :: tr) with ([ev] ++ tr).
  unfold calls_by in *. by rewrite omap_app, Hev, IH.
Qed.

Lemma calls_by_app (g : addr) (tr1 tr2 : list Event) :
  calls_by g (tr1 ++ tr2) = calls_by g tr1 ++ calls_by g tr2.
Proof. apply omap_app. Qed.

Lemma calls_by_dispatcher (g f : addr) args (tr : list Event) :
  calls_by g (ECall None f args :: tr) = calls_by g tr.
Proof. done. Qed.

Lemma tasks_done_call (g : addr) c (f : addr) args (tr : list Event) :
  tasks_done g (ECall c f args :: tr) = tasks_done g tr.
Proof. done. Qed.

Lemma tasks_done_app (g : addr) (tr1 tr2 : list Event) :
  tasks_done g (tr1 ++ tr2) = tasks_done g tr1 ++ tasks_done g tr2.
Proof. apply omap_app. Qed.

Lemma calls_by_started (g : addr) (fs : list addr) (v : Value) :
  calls_by g ((fun f => ECall (Some g) f [v]) <$> fs)
  = (fun f => (f, [v])) <$> fs.
Proof.
  unfold calls_by. induction fs as [|f fs IH]; [done|].
  cbn. rewrite bool_decide_true by done. by rewrite IH.
Qed.

Lemma tasks_done_started (g : addr) (fs : list addr) (v : Value) :
  tasks_done g ((fun f => ECall (Some g) f [v]) <$> fs) = [].
Proof. apply omap_none, Forall_fmap, Forall_forall. done. Qed.

Section Merged.
Variable pick : Scheduler.
Variable H : Heap.
Variable m : addr.
Variable v : Value.

(** The loop starts every function, on the same data. *)
Lemma start_all_coroutine_functions (fs : list addr) :
  Forall (fun f => takes H f [v] = true) fs →
  ∃ cs,
    Forall2 (fun f c => apply (sem pick H) (Some m) f [v]
                        = ([ECall (Some m) f [v]], inr (RCoro c))) fs cs
    ∧ start_all (sem pick H) m fs v
      = ((fun f => ECall (Some m) f [v]) <$> fs,
         zip_with (fun f c => mkTask f false c) fs cs, None).
Proof.
  induction 1 as [|f fs Hf _ IH]; [by exists []|].
  destruct IH as (cs & Hcs & Hstart).
  destruct (apply_coroutine_function pick H (Some m) f v Hf) as [c Hc].
  exists (c :: cs). split; [by constructor|].
  simpl. by rewrite Hc, Hstart.
Qed.

Lemma started_tasks (fs : list addr) (cs : list (Coro Event)) :
  closed H →
  List.length H ≤ m →
  Forall (fun f => iscoroutinefunction H f = true) fs →
  Forall2 (fun f c => apply (sem pick H) (Some m) f [v]
                      = ([ECall (Some m) f [v]], inr (RCoro c))) fs cs →
  let tasks := zip_with (fun f c => mkTask f false c) fs cs in
  task_func <$> tasks = fs
  ∧ (fun t => events (task_coro t)) <$> tasks = events <$> cs
  ∧ (fun t => ETaskDone m (task_func t) Completed) <$> tasks
    = (fun f => ETaskDone m f Completed) <$> fs
  ∧ Forall (fun t => task_func t < m
                     ∧ coro_ok (task_func t) (task_coro t)) tasks
  ∧ (Forall (fun c => outcome c = None) cs →
     Forall (fun t => outcome (task_coro t) = None) tasks)
  ∧ first_turn <$> tasks = (fun c => (turn c).1) <$> cs.
Proof.
  intros Hclosed Hm Hco Hcs.
  pose proof (sem_ok pick H Hclosed) as HS.
  induction Hcs as [|f c fs cs Hc _ IH]; [done|].
  apply Forall_cons in Hco as [Hf Hco].
  destruct (IH Hco) as (IH1 & IH2 & IH3 & IH4 & IH5 & IH6).
  cbn [zip_with]. rewrite !fmap_cons. cbn [task_func task_coro].
  rewrite IH1, IH2, IH3, IH6. repeat split; try done.
  - constructor; [|done]. simpl. split.
    + apply iscoroutinefunction_lt in Hf. lia.
    + by eapply apply_coro_ok.
  - intros [Ho Hos]%Forall_cons. constructor; [done|]. by apply IH5.
Qed.
End Merged.

Lemma Forall_takes_iscoroutinefunction (H : Heap) (fs : list addr) args :
  Forall (fun f => takes H f args = true) fs →
  Forall (fun f => iscoroutinefunction H f = true) fs.
Proof.
  intros Hall. eapply Forall_impl; [exact Hall|].
  intros f. apply takes_iscoroutinefunction.
Qed.

Section Dispatch.
Variable pick : Scheduler.

(** Dispatching the merged function made of the handler functions [fs]: it
    is called, it calls each of [fs] on the data, and then the group runs
    the coroutines they returned. *)
Lemma dispatch_merged (H H2 : Heap) (fs : list addr) (d : list Value) :
  Forall (fun f => takes H f [VList d] = true) fs →
  let m := List.length H in
  ∃ cs,
    let tasks := zip_with (fun f c => mkTask f false c) fs cs in
    Forall2 (fun f c => apply (sem pick H) (Some m) f [VList d]
                        = ([ECall (Some m) f [VList d]], inr (RCoro c)))
            fs cs
    ∧ dispatch pick (H ++ OFunc (await_all_event_handlers fs) :: H2) m d
      = (ECall None m [VList d]
           :: ((fun f => ECall (Some m) f [VList d]) <$> fs)
           ++ events (run_group (pool_size tasks) pick m tasks false []),
         Awaited
           (pep479
              <$> outcome (run_group (pool_size tasks) pick m tasks
                             false []))).
Proof.
  intros Hfs m.
  destruct (start_all_coroutine_functions pick H m (VList d) fs Hfs)
    as (cs & Hcs & Hstart).
  exists cs. split; [done|].
  unfold dispatch. rewrite apply_new. cbn [den async_def1 fst snd].
  rewrite events_frame, outcome_frame.
  unfold await_all_event_handlers_body. fold m. rewrite Hstart.
  cbn [option_list]. rewrite bool_decide_false by (by intros []).
  by rewrite events_emits, outcome_emits.
Qed.

(** The group of a merged function makes no call of its own. *)
Lemma run_group_calls_by (m : addr) fuel (tasks : list Task) cancelled errs :
  Forall (fun t => task_func t < m
                   ∧ coro_ok (task_func t) (task_coro t)) tasks →
  calls_by m (events (run_group fuel pick m tasks cancelled errs)) = [].
Proof.
  intros Htasks. apply calls_by_singletons, run_group_Forall.
  eapply Forall_impl; [exact Htasks|]. intros t [Hlt Ht]. split; [|done].
  eapply Forall_impl; [exact Ht|]. intros ev Hev.
  apply (calls_by_ok (task_func t)); [done|by constructor].
Qed.

Lemma tasks_quiet (m : addr) (tasks : list Task) :
  Forall (fun t => task_func t < m
                   ∧ coro_ok (task_func t) (task_coro t)) tasks →
  Forall (fun t => tasks_done m (events (task_coro t)) = []) tasks.
Proof.
  intros Htasks. eapply Forall_impl; [exact Htasks|]. intros t [Hlt Ht].
  by apply (tasks_done_ok (task_func t)).
Qed.
End Dispatch.


(** C10. The function that [merge_event_handler_funcs] makes of two or more
    handler functions (each takes the event data as its one argument),
    dispatched on the event data [d], under every scheduler: first calls
    every one of the functions on [d], before any of them runs; what
    follows, [rest], is the run of their coroutines [cs] as the tasks of one
    group, and every one of these tasks has ended when the merged function's
    result is there, whichever ends first.  When none of them raises, all
    that each of them does is done before the merged function returns. *)
Theorem merged_function_joins_all (pick : Scheduler) (H : Heap)
    (fs : list addr) (d : list Value) :
  wf_heap H = true →
  2 ≤ List.length fs →
  Forall (fun f => takes H f [VList d] = true) fs →
  ∃ m H' cs rest o,
    merge_event_handler_funcs fs H = (Return m, H')
    ∧ Forall2 (fun f c => apply (sem pick H') (Some m) f [VList d]
                          = ([ECall (Some m) f [VList d]], inr (RCoro c)))
              fs cs
    ∧ dispatch pick H' m d
      = (ECall None m [VList d]
           :: ((fun f => ECall (Some m) f [VList d]) <$> fs) ++ rest,
         Awaited o)
    ∧ (tasks_done m rest).*1 ≡ₚ fs
    ∧ (Forall (fun c => outcome c = None) cs →
       rest ≡ₚ concat (events <$> cs)
               ++ ((fun f => ETaskDone m f Completed) <$> fs)
       ∧ o = None).
Proof.
  intros Hwf Hlen Hfs.
  pose proof (wf_heap_closed H Hwf) as Hclosed.
  pose proof (Forall_takes_iscoroutinefunction _ _ _ Hfs) as Hco.
  destruct (dispatch_merged pick H [] fs d Hfs) as (cs & Hcs & Hd).
  pose proof (started_tasks pick H (List.length H) (VList d) fs cs
                Hclosed (le_n _) Hco Hcs)
    as (Hfuncs & Hevents & Hdones & Htasks & Hout & _).
  eexists _, _, cs, _, _. split.
  { destruct fs as [|f1 [|f2 fs']]; simpl in Hlen; [lia..|]. reflexivity. }
  split.
  { eapply Forall2_impl; [exact Hcs|]. intros f c Hc. simpl in Hc.
    rewrite apply_sem_app; [done|].
    unfold apply in Hc. rewrite sem_lookup in Hc.
    destruct (H !! f) eqn:Ef; [by apply lookup_lt_Some in Ef|done]. }
  split; [exact Hd|]. split.
  - rewrite run_group_tasks_done; [by rewrite Hfuncs|done|].
    by apply tasks_quiet.
  - intros Hnone.
    destruct (run_group_all_complete pick (List.length H) _ _ (le_n _)
                (Hout Hnone)) as [Hperm Ho].
    split; [|by rewrite Ho]. by rewrite Hperm, Hevents, Hdones.
Qed.

(** ** The store stays well formed *)

Lemma wf_heap_iff (H : Heap) :
  wf_heap H = true ↔ ∀ a o, H !! a = Some o → wf_obj H a o = true.
Proof.
  split; [intros Hwf a o; by apply wf_heap_lookup|].
  intros Hall. unfold wf_heap. apply forallb_forall.
  intros [a o] Hin. apply list_elem_of_In, elem_of_lookup_imap in Hin.
  destruct Hin as (a' & o' & [= -> ->] & Ha). by apply Hall.
Qed.

Lemma wf_obj_app (H H2 : Heap) (a : addr) (o : Obj) :
  wf_obj H a o = true → wf_obj (H ++ H2) a o = true.
Proof.
  unfold wf_obj. rewrite !andb_true_iff. intros [Hcap Ho]. split; [done|].
  destruct o as [fo|h]; [done|]. by apply iscoroutinefunction_app.
Qed.

Lemma wf_heap_snoc (H : Heap) (o : Obj) :
  wf_heap H = true →
  wf_obj (H ++ [o]) (List.length H) o = true →
  wf_heap (H ++ [o]) = true.
Proof.
  rewrite !wf_heap_iff. intros Hwf Ho a o' Ha.
  apply lookup_app_Some in Ha as [Ha|[Hge Ha]].
  - by apply wf_obj_app, Hwf.
  - apply list_lookup_singleton_Some in Ha as [Ha <-].
    by replace a with (List.length H) by lia.
Qed.

(** What [to_event_handler_function] returns is a coroutine function. *)
Lemma to_event_handler_function_wf (H H' : Heap) (fn w : addr) (pos : bool) :
  wf_heap H = true →
  fn < List.length H →
  to_event_handler_function fn pos H = (Return w, H') →
  wf_heap H' = true ∧ iscoroutinefunction H' w = true
  ∧ List.length H ≤ List.length H'.
Proof.
  intros Hwf Hlt. unfold to_event_handler_function. unfold_M.
  assert (Hnew : ∀ fo,
    captured (OFunc fo) = [fn] →
    wf_heap (H ++ [OFunc fo]) = true
    ∧ List.length H ≤ List.length (H ++ [OFunc fo])).
  { intros fo Hcap. split; [|rewrite length_app; lia].
    apply wf_heap_snoc; [done|]. unfold wf_obj. rewrite Hcap. simpl.
    by rewrite bool_decide_true. }
  assert (Hco : ∀ fo, is_user fo = false →
    iscoroutinefunction (H ++ [OFunc fo]) (List.length H) = true).
  { intros fo Hfo. unfold iscoroutinefunction.
    rewrite list_lookup_middle by done. by destruct fo. }
  destruct pos, (iscoroutinefunction H fn) eqn:Eco; simpl;
    intros [= <- <-];
    first [ split; [exact Hwf|split; [exact Eco|lia]]
          | match goal with
            | |- wf_heap (H ++ [OFunc ?fo]) = true ∧ _ =>
                destruct (Hnew fo eq_refl) as [Hw Hl];
                split; [exact Hw|split; [by apply Hco|exact Hl]]
            end ].
Qed.

Lemma EventHandler_init_wf (H H' : Heap) (fn a : addr)
    (sp pd : bool) (t : option string) :
  wf_heap H = true →
  fn < List.length H →
  EventHandler_init fn sp pd t H = (Return a, H') →
  wf_heap H' = true
  ∧ ∃ f, H' !! a = Some (OHandler (mkEventHandler f pd sp t)).
Proof.
  intros Hwf Hlt. unfold EventHandler_init. unfold bind at 1.
  destruct (to_event_handler_function fn false H) as [[w|e] H1] eqn:Ew;
    [|done].
  destruct (to_event_handler_function_wf H H1 fn w false Hwf Hlt Ew)
    as (Hwf1 & Hw & Hlen).
  unfold new. intros [= <- <-]. split.
  - apply wf_heap_snoc; [done|]. unfold wf_obj. simpl.
    rewrite bool_decide_true by (by apply iscoroutinefunction_lt in Hw).
    by apply iscoroutinefunction_app.
  - exists w. by apply list_lookup_middle.
Qed.

Lemma merge_event_handlers_wf (H : Heap) (hs : list addr)
    (first : EventHandler) (rest : list EventHandler) :
  wf_heap H = true →
  handlers_at H hs (first :: rest) →
  rest ≠ [] →
  Forall (fun h => ¬ conflicts first h) rest →
  wf_heap (merge_event_handlers hs H).2 = true.
Proof.
  intros Hwf Hat Hrest Hagree.
  rewrite (merge_event_handlers_agree H hs first rest) by done.
  cbn [snd].
  assert (Hfs : Forall (fun f => f < List.length H)
                       (map function (first :: rest))).
  { clear Hrest Hagree. revert Hat. generalize (first :: rest). intros hl.
    induction 1 as [|a h hs hl Ha _ IH]; constructor; [|done].
    by apply iscoroutinefunction_lt, (wf_heap_handler H a). }
  rewrite cons_middle, app_assoc.
  assert (Hwf1 : wf_heap
    (H ++ [OFunc (await_all_event_handlers (map function (first :: rest)))])
    = true).
  { apply wf_heap_snoc; [done|]. unfold wf_obj.
    rewrite andb_true_r. apply forallb_forall. intros f Hf.
    apply bool_decide_eq_true. rewrite Forall_forall in Hfs.
    by apply Hfs, list_elem_of_In. }
  apply wf_heap_snoc; [done|]. unfold wf_obj. cbn [captured function].
  rewrite length_app. cbn [forallb List.length].
  rewrite bool_decide_true by lia. cbn [andb].
  unfold iscoroutinefunction.
  rewrite lookup_app_l by (rewrite length_app; simpl; lia).
  by rewrite list_lookup_middle.
Qed.

(** ** On the example store *)

Lemma example_heap_wf : wf_heap example_heap = true.
Proof. reflexivity. Qed.


(** The three handlers of the example, merged and dispatched: the wrapper
    of [record] calls it, the sleeper sleeps and wakes up, the instant
    function runs, and all three tasks end. *)
Example merged_handler_runs_all :
  let '(r, H') := merge_event_handlers [6; 7; 8] example_heap in
  r = Return 11
  ∧ H' !! 11 = Some (OHandler (mkEventHandler 10 false false None))
  ∧ dispatch fifo H' 10 example_data
    = ([ECall None 10 [VList example_data];
        ECall (Some 10) 5 [VList example_data];
        ECall (Some 10) 1 [VList example_data];
        ECall (Some 10) 2 [VList example_data];
        ECall (Some 5) 0 [VList example_data];
        EUser 0 (VList [VList example_data]);
        ETaskDone 10 5 Completed;
        EUser 2 (VStr "instant"); ETaskDone 10 2 Completed;
        EUser 1 (VStr "slept"); ETaskDone 10 1 Completed],
       Awaited None).
Proof. repeat split; reflexivity. Qed.

Lemma merge_conflicting_raises_witness :
  ∃ e, merge_event_handlers [8; 9] example_heap = (Raise e, example_heap)
       ∧ is_ValueError e = true
       ∧ Forall (fun h =>
                   Forall (fun name => occurs_in name (exc_message e) = true)
                          (conflicting_fields
                             (mkEventHandler 2 false false None) h))
                [mkEventHandler 2 false false None;
                 mkEventHandler 2 false true None].
Proof.
  apply (merge_conflicting_raises example_heap [8; 9]
           (mkEventHandler 2 false false None)
           [mkEventHandler 2 false true None]).
  - repeat constructor.
  - constructor. left. simpl. discriminate.
Defined.

Lemma adapter_passes_arguments_witness :
  ∃ w H',
    to_event_handler_function 0 true example_heap = (Return w, H')
    ∧ calls_of 0 (dispatch fifo H' w example_data).1 = [[VInt 1; VInt 2]].
Proof.
  apply (adapter_passes_arguments fifo example_heap 0
           (UserDef None (fun args => ([VList args], None))) true
           example_data);
    reflexivity.
Defined.

Lemma async_function_returned_unchanged_witness :
  to_event_handler_function 1 false example_heap = (Return 1, example_heap).
Proof.
  apply (async_function_returned_unchanged example_heap 1). reflexivity.
Defined.

Lemma adapter_propagates_exceptions_witness :
  ∃ w H',
    to_event_handler_function 3 true example_heap = (Return w, H')
    ∧ (dispatch fifo H' w example_data).2 = Awaited (Some KeyError).
Proof.
  apply (adapter_propagates_exceptions fifo example_heap 3
           (UserDef None (fun _ => ([], Some KeyError))) true example_data);
    reflexivity.
Defined.

(** [async def zero()] goes into a handler as it is, and dispatching it on
    [[1, 2]] raises at the call: there is no awaitable.  [def stops(data)]
    raises [StopIteration], and the awaitable of its wrapper fails with
    another exception. *)
Lemma adapter_throws_at_call :
  to_event_handler_function 0 false example_methods
  = (Return 0, example_methods)
  ∧ dispatch fifo example_methods 0 example_data
    = ([ECall None 0 [VList example_data]],
       ThrewSync
         (TypeError "zero() takes 0 positional arguments but 1 was given"))
  ∧ (∀ o, (dispatch fifo example_methods 0 example_data).2 ≠ Awaited o)
  ∧ to_event_handler_function 1 false example_methods
    = (Return 6, example_methods ++ [OFunc (wrapper_call 1)])
  ∧ user_result (UserDef None (fun _ => ([], Some (StopIteration ""))))
      [VList example_data]
    = Some (StopIteration "")
  ∧ (dispatch fifo (example_methods ++ [OFunc (wrapper_call 1)]) 6
       example_data).2
    = Awaited (Some (RuntimeError "coroutine raised StopIteration"))
  ∧ (dispatch fifo (example_methods ++ [OFunc (wrapper_call 1)]) 6
       example_data).2
    ≠ Awaited (Some (StopIteration "")).
Proof. repeat split; try reflexivity; intros; discriminate. Qed.

Lemma merge_builds_new_handler_witness :
  ∃ m fm H',
    merge_event_handlers [6; 7; 8] example_heap = (Return m, H')
    ∧ example_heap !! m = None ∧ (m ∉ [6; 7; 8])
    ∧ (∀ a o, example_heap !! a = Some o → H' !! a = Some o)
    ∧ H' !! m = Some (OHandler (mkEventHandler fm false false None))
    ∧ H' !! fm = Some (OFunc (await_all_event_handlers [5; 1; 2]))
    ∧ (∃ Hf, merge_event_handler_funcs [5; 1; 2] example_heap
             = (Return fm, Hf)
             ∧ Hf !! fm = H' !! fm).
Proof.
  apply (merge_builds_new_handler example_heap [6; 7; 8]
           (mkEventHandler 5 false false None)
           [mkEventHandler 1 false false None;
            mkEventHandler 2 false false None]).
  - repeat constructor.
  - discriminate.
  - repeat constructor; unfold conflicts; simpl; intros [|[|]]; congruence.
Defined.

Lemma merged_function_joins_all_witness :
  ∃ m H' cs rest o,
    merge_event_handler_funcs [1; 2] example_heap = (Return m, H')
    ∧ Forall2 (fun f c => apply (sem fifo H') (Some m) f [VList example_data]
                          = ([ECall (Some m) f [VList example_data]],
                             inr (RCoro c)))
              [1; 2] cs
    ∧ dispatch fifo H' m example_data
      = (ECall None m [VList example_data]
           :: [ECall (Some m) 1 [VList example_data];
               ECall (Some m) 2 [VList example_data]] ++ rest,
         Awaited o)
    ∧ (tasks_done m rest).*1 ≡ₚ [1; 2]
    ∧ (Forall (fun c => outcome c = None) cs →
       rest ≡ₚ concat (events <$> cs)
               ++ [ETaskDone m 1 Completed; ETaskDone m 2 Completed]
       ∧ o = None).
Proof.
  apply (merged_function_joins_all fifo example_heap [1; 2] example_data).
  - reflexivity.
  - simpl. lia.
  - repeat constructor.
Defined.

(** The adapter on [[1, 2]]: [record(1, 2)] with positional arguments,
    [record([1, 2])] without. *)
Example adapter_positional :
  let '(r, H') := to_event_handler_function 0 true example_heap in
  r = Return 10
  ∧ dispatch fifo H' 10 example_data
    = ([ECall None 10 [VList [VInt 1; VInt 2]];
        ECall (Some 10) 0 [VInt 1; VInt 2];
        EUser 0 (VList [VInt 1; VInt 2])],
       Awaited None).
Proof. split; reflexivity. Qed.

Example adapter_single_argument :
  let '(r, H') := to_event_handler_function 0 false example_heap in
  r = Return 10
  ∧ dispatch fifo H' 10 example_data
    = ([ECall None 10 [VList [VInt 1; VInt 2]];
        ECall (Some 10) 0 [VList [VInt 1; VInt 2]];
        EUser 0 (VList [VList [VInt 1; VInt 2]])],
       Awaited None).
Proof. split; reflexivity. Qed.

(** A sleeper and an instant function, merged: the instant one ends first,
    and the merged function returns after the sleeper has woken up. *)
Example join_not_race :
  let '(r, H') := merge_event_handler_funcs [1; 2] example_heap in
  r = Return 10
  ∧ dispatch fifo H' 10 example_data
    = ([ECall None 10 [VList example_data];
        ECall (Some 10) 1 [VList example_data];
        ECall (Some 10) 2 [VList example_data];
        EUser 2 (VStr "instant"); ETaskDone 10 2 Completed;
        EUser 1 (VStr "slept"); ETaskDone 10 1 Completed],
       Awaited None).
Proof. split; reflexivity. Qed.

(** Two handlers made one after the other of the same coroutine function,
    flags and target are two objects, and they are equal. *)
Example separately_constructed_equal :
  let '(_, H') :=
    (a <- EventHandler_init 1 false true (Some "t") ;;
     EventHandler_init 1 false true (Some "t")) example_heap in
  match H' !! 10, H' !! 11 with
  | Some (OHandler a), Some b => EventHandler_eq H' a b = true
  | _, _ => False
  end.
Proof. reflexivity. Qed.

(** [view.on_click], read twice, is two objects that are [==]: the handlers
    made of them are equal, though their functions are not the same
    object. *)
Example bound_methods_equal :
  EventHandler_eq example_methods (mkEventHandler 2 false false None)
    (OHandler (mkEventHandler 3 false false None)) = true
  ∧ example_methods !! 4 = Some (OHandler (mkEventHandler 2 false false None))
  ∧ example_methods !! 5 = Some (OHandler (mkEventHandler 3 false false None))
  ∧ 2 ≠ 3.
Proof. repeat split; try reflexivity. lia. Qed.

(** The same under every scheduler: the merged function returns, and the
    sleeper has woken up by then. *)
Example join_under_every_scheduler (pick : Scheduler) :
  let H' := example_heap ++ [OFunc (await_all_event_handlers [1; 2])] in
  (dispatch pick H' 10 example_data).2 = Awaited None
  ∧ EUser 1 (VStr "slept") ∈ (dispatch pick H' 10 example_data).1.
Proof.
  intros H'.
  assert (Hfs : Forall (fun f => takes example_heap f [VList example_data]
                                  = true) [1; 2]) by repeat constructor.
  pose proof (Forall_takes_iscoroutinefunction _ _ _ Hfs) as Hco.
  destruct (dispatch_merged pick example_heap [] [1; 2] example_data Hfs)
    as (cs & Hcs & Hd).
  pose proof (started_tasks pick example_heap 10 (VList example_data) _ cs
                (wf_heap_closed _ example_heap_wf) (le_n _) Hco Hcs)
    as (_ & Hevents & _ & _ & Hout & _).
  apply Forall2_cons_inv_l in Hcs as (c1 & cs' & Hc1 & Hcs & ->).
  apply Forall2_cons_inv_l in Hcs as (c2 & cs'' & Hc2 & Hcs & ->).
  apply Forall2_nil_inv_l in Hcs as ->.
  vm_compute in Hc1, Hc2.
  injection Hc1 as <-. injection Hc2 as <-.
  destruct (run_group_all_complete pick 10 _ _ (le_n _)
              (Hout ltac:(repeat constructor))) as [Hperm Ho].
  unfold H'. change (List.length example_heap) with 10 in Hd.
  rewrite Hd. cbn [fst snd]. split; [by rewrite Ho|].
  do 3 apply list_elem_of_further. rewrite Hperm, Hevents.
  apply elem_of_app. left. cbn. apply list_elem_of_here.
Qed.

(** * More of the module *)

(** ** The adapter, again *)

(** X1. What [to_event_handler_function] returns, in either mode and
    whatever it was given, is left alone by a second pass without positional
    arguments: the same object comes back and nothing is made, so a function
    is never wrapped twice on its way into a handler. *)
Theorem adapter_idempotent (H : Heap) (fn : addr) (positional_args : bool) :
  ∃ w H',
    to_event_handler_function fn positional_args H = (Return w, H')
    ∧ to_event_handler_function w false H' = (Return w, H').
Proof.
  unfold to_event_handler_function. unfold_M.
  assert (Hnew : ∀ fo, is_user fo = false →
    iscoroutinefunction (H ++ [OFunc fo]) (List.length H) = true).
  { intros fo Hfo. unfold iscoroutinefunction.
    rewrite list_lookup_middle by done. by destruct fo. }
  destruct positional_args, (iscoroutinefunction H fn) eqn:Eco; simpl;
    eexists _, _; (split; [reflexivity|]);
    rewrite ?Hnew, ?Eco by done; done.
Qed.

(** X2. In a well-formed store, for an object [fn] of the store, the
    adapter never raises, returns a coroutine function, makes at most one
    object, leaves the objects of the store as they were and keeps the store
    well formed. *)
Theorem adapter_returns_coroutine_function (H : Heap) (fn : addr)
    (positional_args : bool) :
  wf_heap H = true →
  fn < List.length H →
  ∃ w H',
    to_event_handler_function fn positional_args H = (Return w, H')
    ∧ iscoroutinefunction H' w = true
    ∧ wf_heap H' = true
    ∧ H `prefix_of` H'
    ∧ List.length H' ≤ S (List.length H).
Proof.
  intros Hwf Hlt.
  destruct (to_event_handler_function fn positional_args H) as [r H']
    eqn:Ew.
  assert (Hr : ∃ w, r = Return w
                    ∧ H `prefix_of` H'
                    ∧ List.length H' ≤ S (List.length H)).
  { revert Ew. unfold to_event_handler_function. unfold_M.
    destruct positional_args, (iscoroutinefunction H fn); simpl;
      intros [= <- <-]; eexists; (split; [reflexivity|]);
      rewrite ?length_app; simpl; (split; [|lia]);
      first [ done | by apply prefix_app_r ]. }
  destruct Hr as (w & -> & Hpre & Hlen).
  destruct (to_event_handler_function_wf H H' fn w positional_args Hwf Hlt Ew)
    as (Hwf' & Hco & _).
  by exists w, H'.
Qed.

Lemma adapter_returns_coroutine_function_witness :
  ∃ w H',
    to_event_handler_function 0 true example_heap = (Return w, H')
    ∧ iscoroutinefunction H' w = true
    ∧ wf_heap H' = true
    ∧ example_heap `prefix_of` H'
    ∧ List.length H' ≤ S (List.length example_heap).
Proof.
  apply (adapter_returns_coroutine_function example_heap 0 true).
  - reflexivity.
  - simpl. lia.
Defined.

(** ** What the merge does to the store, and when it succeeds *)

Lemma check_handlers_store sp pd t (hs : list addr) (H H' : Heap) r :
  check_handlers sp pd t hs H = (r, H') → H' = H.
Proof.
  revert r H'. induction hs as [|a hs IH]; intros r H'; simpl; unfold_M.
  - by intros [= _ <-].
  - destruct (H !! a) as [[fo|h]|]; try by intros [= _ <-].
    destruct (_ || _); [by intros [= _ <-]|]. apply IH.
Qed.

Lemma handler_functions_store (hs : list addr) (H H' : Heap) r :
  handler_functions hs H = (r, H') → H' = H.
Proof.
  revert r H'. induction hs as [|a hs IH]; intros r H'; simpl; unfold_M.
  - by intros [= _ <-].
  - destruct (H !! a) as [[fo|h]|]; try by intros [= _ <-].
    destruct (handler_functions hs H) as [[fs|e] H1] eqn:E;
      pose proof (IH _ _ eq_refl) as ->; by intros [= _ <-].
Qed.

(** The loop passes only over handlers that agree. *)
Lemma check_handlers_passed (first : EventHandler) (hs : list addr)
    (H H' : Heap) :
  check_handlers (stop_propagation first) (prevent_default first)
    (target first) hs H = (Return tt, H') →
  ∃ hl, handlers_at H hs hl ∧ Forall (fun h => ¬ conflicts first h) hl.
Proof.
  revert H'. induction hs as [|a hs IH]; intros H'; simpl; unfold_M.
  - intros _. exists []. split; constructor.
  - destruct (H !! a) as [[fo|h]|] eqn:Ea; try done.
    destruct (_ || _) eqn:Ec; [done|]. intros Hrest.
    destruct (IH _ Hrest) as (hl & Hat & Hagree).
    exists (h :: hl). split; [by constructor|].
    constructor; [|done]. intros Hc. apply conflicts_test in Hc. congruence.
Qed.

(** For two or more addresses: either they are handlers that agree, or the
    merge raises and leaves the store as it was. *)
Lemma merge_event_handlers_cases (H : Heap) (a0 a1 : addr) (hs : list addr) :
  (∃ first rest,
     handlers_at H (a0 :: a1 :: hs) (first :: rest)
     ∧ rest ≠ []
     ∧ Forall (fun h => ¬ conflicts first h) rest)
  ∨ (∃ e, merge_event_handlers (a0 :: a1 :: hs) H = (Raise e, H)).
Proof.
  unfold merge_event_handlers.
  unfold bind at 1. unfold get_handler at 1.
  destruct (H !! a0) as [[fo|first]|] eqn:Ea0; try (right; by eexists).
  unfold bind at 1.
  destruct (check_handlers _ _ _ _ H) as [[[]|e] H1] eqn:Ec;
    pose proof (check_handlers_store _ _ _ _ _ _ _ Ec) as ->;
    [|right; by eexists].
  left.
  destruct (check_handlers_passed first _ _ _ Ec) as (hl & Hat & Hagree).
  inversion Hat as [|? h0 ? hl0 Hh0 Hat0]; subst.
  assert (h0 = first) as -> by congruence.
  exists first, hl0. split; [done|]. split.
  - by inversion Hat0.
  - by apply Forall_cons in Hagree as [_ ?].
Qed.

(** X3. Whatever it is given, [merge_event_handlers] never writes to an
    object of the store: the store it leaves starts with the store it found;
    and when it raises, it has made nothing. *)
Theorem merge_event_handlers_store (hs : list addr) (H : Heap) :
  H `prefix_of` (merge_event_handlers hs H).2
  ∧ ∀ e, (merge_event_handlers hs H).1 = Raise e →
         (merge_event_handlers hs H).2 = H.
Proof.
  destruct hs as [|a0 [|a1 hs]]; try done.
  destruct (merge_event_handlers_cases H a0 a1 hs)
    as [(first & rest & Hat & Hne & Hagree)|[e ->]]; [|done].
  rewrite (merge_event_handlers_agree H _ first rest Hat Hne Hagree).
  cbn [fst snd]. split; [by apply prefix_app_r|done].
Qed.

(** X4. For two or more addresses, [merge_event_handlers] returns a handler
    exactly when all of them are handlers of the store that agree with the
    first on [stop_propagation], [prevent_default] and [target]; otherwise
    it raises. *)
Theorem merge_event_handlers_success_iff (H : Heap) (a0 a1 : addr)
    (hs : list addr) :
  (∃ m, (merge_event_handlers (a0 :: a1 :: hs) H).1 = Return m)
  ↔ ∃ first rest,
      handlers_at H (a0 :: a1 :: hs) (first :: rest)
      ∧ Forall (fun h => ¬ conflicts first h) rest.
Proof.
  split.
  - intros [m Hm].
    destruct (merge_event_handlers_cases H a0 a1 hs)
      as [(first & rest & Hat & Hne & Hagree)|[e He]].
    + by exists first, rest.
    + by rewrite He in Hm.
  - intros (first & rest & Hat & Hagree).
    assert (rest ≠ []) as Hne.
    { inversion Hat as [|? ? ? ? _ Hat0]; subst.
      by inversion Hat0. }
    rewrite (merge_event_handlers_agree H _ first rest Hat Hne Hagree).
    by eexists.
Qed.

(** ** Equality of handlers *)

(** A function that is not a bound method is [==] to itself only. *)
Lemma callable_eq_plain (H : Heap) (a b : addr) :
  bound_method H a = None →
  callable_eq H b a = bool_decide (b = a).
Proof.
  intros Ha. unfold callable_eq. rewrite Ha.
  destruct (bound_method H b); by rewrite orb_false_r.
Qed.

(** X5. [==] on handlers is an equivalence: every handler equals itself,
    [a == b] and [b == a] give the same answer, and equality passes from
    [a == b] and [b == c] to [a == c]; a handler never equals a function
    object. *)
Theorem EventHandler_eq_equivalence (H : Heap) (a b c : EventHandler)
    (fo : FuncObj) :
  EventHandler_eq H a (OHandler a) = true
  ∧ EventHandler_eq H a (OHandler b) = EventHandler_eq H b (OHandler a)
  ∧ (EventHandler_eq H a (OHandler b) = true →
     EventHandler_eq H b (OHandler c) = true →
     EventHandler_eq H a (OHandler c) = true)
  ∧ EventHandler_eq H a (OFunc fo) = false.
Proof.
  split; [|split; [|split; [|done]]].
  - apply EventHandler_eq_fields. by rewrite callable_eq_refl.
  - destruct (EventHandler_eq H a (OHandler b)) eqn:Eab,
             (EventHandler_eq H b (OHandler a)) eqn:Eba; try done.
    + apply EventHandler_eq_fields in Eab as (Hf & Hs & Hp & Ht).
      rewrite callable_eq_sym in Hf.
      rewrite (proj2 (EventHandler_eq_fields H b a)) in Eba; done.
    + apply EventHandler_eq_fields in Eba as (Hf & Hs & Hp & Ht).
      rewrite callable_eq_sym in Hf.
      rewrite (proj2 (EventHandler_eq_fields H a b)) in Eab; done.
  - intros (Hf1 & Hs1 & Hp1 & Ht1)%EventHandler_eq_fields
           (Hf2 & Hs2 & Hp2 & Ht2)%EventHandler_eq_fields.
    apply EventHandler_eq_fields. repeat split; try congruence.
    by apply (callable_eq_trans H _ (function b)).
Qed.

(** X6. Two handlers made one after the other from the same function, with
    the same flags and target, are two objects; they are equal when the
    function is a coroutine function, which both keep as it is, and unequal
    when it is not: each then has a wrapper of its own, and functions are
    compared by identity. *)
Theorem handlers_of_same_function (H : Heap) (fn : addr) (sp pd : bool)
    (t : option string) :
  fn < List.length H →
  ∃ a b ha hb H',
    (x <- EventHandler_init fn sp pd t ;;
     y <- EventHandler_init fn sp pd t ;;
     ret (x, y)) H = (Return (a, b), H')
    ∧ a ≠ b
    ∧ H' !! a = Some (OHandler ha)
    ∧ H' !! b = Some (OHandler hb)
    ∧ EventHandler_eq H' ha (OHandler hb) = iscoroutinefunction H fn.
Proof.
  intros Hlt.
  unfold EventHandler_init, to_event_handler_function. unfold_M.
  destruct (iscoroutinefunction H fn) eqn:Eco; simpl.
  - rewrite (iscoroutinefunction_app H [_] fn Eco). simpl.
    eexists _, _, _, _, _. split; [reflexivity|].
    rewrite !length_app. simpl.
    split; [lia|]. split.
    { rewrite lookup_app_l by (rewrite length_app; simpl; lia).
      by apply list_lookup_middle. }
    split.
    { apply list_lookup_middle. rewrite length_app. simpl. lia. }
    apply EventHandler_eq_fields. simpl. by rewrite callable_eq_refl.
  - assert (Eco' : iscoroutinefunction
              ((H ++ [OFunc (wrapper_call fn)])
                 ++ [OHandler (mkEventHandler (List.length H) pd sp t)]) fn
            = false).
    { unfold iscoroutinefunction in *.
      rewrite <- app_assoc. by rewrite lookup_app_l. }
    rewrite Eco'. simpl.
    eexists _, _, _, _, _. split; [reflexivity|].
    rewrite !length_app. simpl.
    split; [lia|]. split.
    { rewrite <- !app_assoc. simpl.
      rewrite lookup_app_r by lia.
      by replace (List.length H + 1 - List.length H) with 1 by lia. }
    split.
    { apply list_lookup_middle. rewrite !length_app. simpl. lia. }
    apply not_true_is_false.
    intros (Hf & _)%EventHandler_eq_fields. simpl in Hf.
    rewrite callable_eq_plain in Hf.
    + apply bool_decide_eq_true in Hf. lia.
    + unfold bound_method. rewrite <- !app_assoc.
      cbn [app]. by rewrite list_lookup_middle.
Qed.

Lemma handlers_of_same_function_witness :
  ∃ a b ha hb H',
    (x <- EventHandler_init 0 false true (Some "t") ;;
     y <- EventHandler_init 0 false true (Some "t") ;;
     ret (x, y)) example_heap = (Return (a, b), H')
    ∧ a ≠ b
    ∧ H' !! a = Some (OHandler ha)
    ∧ H' !! b = Some (OHandler hb)
    ∧ EventHandler_eq H' ha (OHandler hb) = false.
Proof.
  apply (handlers_of_same_function example_heap 0 false true (Some "t")).
  simpl. lia.
Defined.

(** ** The order of the handlers *)

Lemma conflicts_flags (first h : EventHandler) :
  ¬ conflicts first h ↔ flags h = flags first.
Proof.
  unfold conflicts, flags. split.
  - intros Hn.
    destruct (decide (stop_propagation h = stop_propagation first));
      [|tauto].
    destruct (decide (prevent_default h = prevent_default first)); [|tauto].
    destruct (decide (target h = target first)); [|tauto].
    congruence.
  - intros [= -> -> ->]. tauto.
Qed.

Lemma handlers_at_Permutation (H : Heap) (hs hs' : list addr)
    (hl : list EventHandler) :
  handlers_at H hs hl →
  hs ≡ₚ hs' →
  ∃ hl', handlers_at H hs' hl' ∧ hl ≡ₚ hl'.
Proof.
  intros Hat Hperm.
  destruct (Permutation_Forall2 Hperm Hat) as (hl' & Hp & Hat').
  by exists hl'.
Qed.

(** X7. The order of the handlers decides neither whether the merge
    succeeds nor the flags and target of what it makes: if two or more
    handlers merge, so do they in any other order, into a handler with the
    same flags and target, whose function is made of the same functions in
    the new order; and if they do not, they do not in any other order. *)
Theorem merge_order_irrelevant (H : Heap) (hs hs' : list addr)
    (first : EventHandler) (rest : list EventHandler) :
  handlers_at H hs (first :: rest) →
  rest ≠ [] →
  hs ≡ₚ hs' →
  (Forall (fun h => ¬ conflicts first h) rest →
   ∃ hl', handlers_at H hs' hl'
          ∧ hl' ≡ₚ first :: rest
          ∧ merge_event_handlers hs' H
            = (Return (S (List.length H)),
               H ++ [OFunc (await_all_event_handlers (map function hl'));
                     OHandler (mkEventHandler (List.length H)
                                 (prevent_default first)
                                 (stop_propagation first) (target first))]))
  ∧ (Exists (conflicts first) rest →
     merge_event_handlers hs' H = (Raise (ValueError mismatch_msg), H)).
Proof.
  intros Hat Hrest Hperm.
  destruct (handlers_at_Permutation H hs hs' _ Hat Hperm)
    as (hl' & Hat' & Hp).
  assert (Hlen : List.length hl' = S (List.length rest)).
  { by rewrite <- Hp. }
  destruct hl' as [|first' [|second' rest']];
    [simpl in Hlen; lia
    |destruct rest; [done|simpl in Hlen; lia]|].
  split.
  - intros Hagree.
    assert (Hall : Forall (fun h => flags h = flags first)
                          (first' :: second' :: rest')).
    { rewrite <- Hp. constructor; [done|].
      eapply Forall_impl; [exact Hagree|].
      intros h. apply conflicts_flags. }
    apply Forall_cons in Hall as [Hf' Hall].
    exists (first' :: second' :: rest'). split; [done|].
    split; [by symmetry|].
    rewrite (merge_event_handlers_agree H hs' first' (second' :: rest'));
      [|done|done|].
    + injection Hf' as -> -> ->. done.
    + eapply Forall_impl; [exact Hall|].
      intros h Hh. apply conflicts_flags. congruence.
  - intros Hex.
    inversion Hat' as [|a0 ? hs0 ? Ha0 Hat0]; subst.
    inversion Hat0 as [|a1 ? hs1 ? Ha1 Hat1]; subst.
    unfold merge_event_handlers.
    unfold bind at 1. unfold get_handler at 1. rewrite Ha0.
    unfold bind at 1.
    rewrite (check_handlers_conflict H first' _ _ Hat'); [done|].
    destruct (Forall_Exists_dec
                (fun h => flags h = flags first')
                (fun h => flags h ≠ flags first')
                (fun h => decide (flags h = flags first'))
                (first' :: second' :: rest')) as [Hall|Hsome].
    + exfalso. rewrite <- Hp in Hall.
      apply Forall_cons in Hall as [Hf Hall].
      apply Exists_exists in Hex as (h & Hin & Hc).
      rewrite Forall_forall in Hall. specialize (Hall h Hin).
      apply (proj2 (conflicts_flags first h)); [congruence|done].
    + eapply Exists_impl; [exact Hsome|].
      intros h Hne. destruct (decide (conflicts first' h)) as [|Hn];
        [done|].
      by apply conflicts_flags in Hn.
Qed.

Lemma merge_order_irrelevant_witness :
  (Forall (fun h => ¬ conflicts (mkEventHandler 5 false false None) h)
          [mkEventHandler 1 false false None;
           mkEventHandler 2 false false None] →
   ∃ hl', handlers_at example_heap [8; 6; 7] hl'
          ∧ hl' ≡ₚ [mkEventHandler 5 false false None;
                    mkEventHandler 1 false false None;
                    mkEventHandler 2 false false None]
          ∧ merge_event_handlers [8; 6; 7] example_heap
            = (Return 11,
               example_heap
               ++ [OFunc (await_all_event_handlers (map function hl'));
                   OHandler (mkEventHandler 10 false false None)]))
  ∧ (Exists (conflicts (mkEventHandler 5 false false None))
            [mkEventHandler 1 false false None;
             mkEventHandler 2 false false None] →
     merge_event_handlers [8; 6; 7] example_heap
     = (Raise (ValueError mismatch_msg), example_heap)).
Proof.
  apply (merge_order_irrelevant example_heap [6; 7; 8] [8; 6; 7]
           (mkEventHandler 5 false false None)
           [mkEventHandler 1 false false None;
            mkEventHandler 2 false false None]).
  - repeat constructor.
  - discriminate.
  - change [8; 6; 7] with ([8] ++ [6; 7]).
    change [6; 7; 8] with ([6; 7] ++ [8]).
    apply Permutation_app_comm.
Defined.

(** ** Wrapped user functions *)

Lemma calls_of_user (x f : addr) (vs : list Value) :
  calls_of x (map (EUser f) vs) = [].
Proof. apply omap_none. induction vs; by constructor. Qed.

Lemma actions_of_user (f : addr) (vs : list Value) :
  actions_of f (map (EUser f) vs) = vs.
Proof.
  unfold actions_of. induction vs as [|v vs IH]; [done|].
  cbn. rewrite bool_decide_true by done. by rewrite IH.
Qed.

Lemma actions_of_other (x f : addr) (vs : list Value) :
  x ≠ f → actions_of x (map (EUser f) vs) = [].
Proof.
  intros Hne. apply omap_none.
  induction vs; constructor; [|done]. simpl. by rewrite bool_decide_false.
Qed.

Lemma actions_of_call (x : addr) c (f : addr) args (tr : list Event) :
  actions_of x (ECall c f args :: tr) = actions_of x tr.
Proof. done. Qed.

Lemma actions_of_app (x : addr) (tr1 tr2 : list Event) :
  actions_of x (tr1 ++ tr2) = actions_of x tr1 ++ actions_of x tr2.
Proof. apply omap_app. Qed.

Lemma calls_of_same c (f : addr) args (tr : list Event) :
  calls_of f (ECall c f args :: tr) = args :: calls_of f tr.
Proof. unfold calls_of. cbn. by rewrite bool_decide_true. Qed.

Arguments actions_of : simpl never.

Section Wrapped.
Variable pick : Scheduler.

Lemma dispatch_app (H H2 : Heap) (w : addr) (d : list Value) :
  w < List.length H →
  dispatch pick (H ++ H2) w d = dispatch pick H w d.
Proof. intros Hlt. unfold dispatch. by rewrite apply_sem_app. Qed.

(** The coroutine of the wrapper that spreads the data. *)
Lemma star_wrapper_coroutine (H H2 : Heap) (fn : addr) (fo : FuncObj)
    caller (d : list Value) :
  H !! fn = Some (OFunc fo) →
  is_user fo = true →
  ∃ c,
    apply (sem pick (H ++ OFunc (star_wrapper H fn) :: H2)) caller
      (List.length H) [VList d]
    = ([ECall caller (List.length H) [VList d]], inr (RCoro c))
    ∧ events c
      = ECall (Some (List.length H)) fn d :: map (EUser fn) (user_events fo d)
    ∧ outcome c = pep479 <$> user_result fo d.
Proof.
  intros Hfn Hu. rewrite apply_new.
  unfold star_wrapper, iscoroutinefunction. rewrite Hfn.
  destruct fo as [b body|b body| | | |]; try done;
    cbn [den async_def1 fst snd].
  - eexists. split; [reflexivity|].
    rewrite events_frame, outcome_frame.
    unfold wrapper_call_star_body. cbn [unpack].
    rewrite (apply_UserDef pick H fn b body) by done.
    rewrite events_emits, outcome_emits. cbn.
    destruct (body d).2; cbn; by rewrite app_nil_r.
  - eexists. split; [reflexivity|].
    rewrite events_frame, outcome_frame.
    unfold wrapper_await_star_body. cbn [unpack].
    rewrite (apply_UserAsyncDef pick H fn b body) by done.
    cbn. destruct (body d) as [e|c]; cbn; [done|].
    by rewrite events_frame, outcome_frame, events_cmap, outcome_cmap.
Qed.

(** The coroutine of the wrapper that passes the data as one argument. *)
Lemma call_wrapper_coroutine (H H2 : Heap) (fn : addr) b body caller
    (d : list Value) :
  H !! fn = Some (OFunc (UserDef b body)) →
  ∃ c,
    apply (sem pick (H ++ OFunc (wrapper_call fn) :: H2)) caller
      (List.length H) [VList d]
    = ([ECall caller (List.length H) [VList d]], inr (RCoro c))
    ∧ events c
      = ECall (Some (List.length H)) fn [VList d]
          :: map (EUser fn) (body [VList d]).1
    ∧ outcome c = pep479 <$> (body [VList d]).2.
Proof.
  intros Hfn. rewrite apply_new. cbn [den async_def1 fst snd].
  eexists. split; [reflexivity|].
  rewrite events_frame, outcome_frame.
  unfold wrapper_call_body.
  rewrite (apply_UserDef pick H fn b body) by done.
  rewrite events_emits, outcome_emits. cbn.
  destruct (body [VList d]).2; cbn; by rewrite app_nil_r.
Qed.

Lemma dispatch_coroutine (H : Heap) (w : addr) (d : list Value)
    (c : Coro Event) :
  apply (sem pick H) None w [VList d]
  = ([ECall None w [VList d]], inr (RCoro c)) →
  dispatch pick H w d
  = (ECall None w [VList d] :: events c, Awaited (outcome c)).
Proof. intros Happly. unfold dispatch. by rewrite Happly. Qed.
End Wrapped.

Lemma event_makes (H : Heap) (fn : addr) (sp pd : bool) :
  event fn sp pd H
  = (Return (S (List.length H)),
     H ++ [OFunc (star_wrapper H fn);
           OHandler (mkEventHandler (List.length H) pd sp None)]).
Proof.
  unfold event, EventHandler_init, to_event_handler_function, star_wrapper.
  unfold_M.
  assert (Hnew : ∀ fo, is_user fo = false →
    iscoroutinefunction (H ++ [OFunc fo]) (List.length H) = true).
  { intros fo Hfo. unfold iscoroutinefunction.
    rewrite list_lookup_middle by done. by destruct fo. }
  destruct (iscoroutinefunction H fn); simpl; rewrite Hnew by done; simpl;
    by rewrite length_app, Nat.add_1_r, <- app_assoc.
Qed.

(** X8. [event(fn, stop_propagation, prevent_default)] on a user's callable
    makes two objects, a wrapper and a handler: the handler has the flags
    given, each in its own slot, no target, and the wrapper as its function,
    not wrapped again by [__init__].  Dispatched on [d], the function calls
    [fn] once with the elements of [d] as its arguments; what [fn] does is
    all that happens then, and the awaited result is [fn]'s, a
    [StopIteration] leaving the coroutine as the [RuntimeError]
    "coroutine raised StopIteration". *)
Theorem event_spreads_data (pick : Scheduler) (H : Heap) (fn : addr)
    (fo : FuncObj) (sp pd : bool) (d : list Value) :
  H !! fn = Some (OFunc fo) →
  is_user fo = true →
  ∃ a h H',
    event fn sp pd H = (Return a, H')
    ∧ H' !! a = Some (OHandler h)
    ∧ List.length H' = 2 + List.length H
    ∧ stop_propagation h = sp ∧ prevent_default h = pd ∧ target h = None
    ∧ dispatch pick H' (function h) d
      = ([ECall None (function h) [VList d];
          ECall (Some (function h)) fn d]
           ++ map (EUser fn) (user_events fo d),
         Awaited (pep479 <$> user_result fo d)).
Proof.
  intros Hfn Hu. rewrite event_makes.
  eexists _, _, _. split; [reflexivity|]. split.
  { rewrite lookup_app_r by lia.
    by replace (S (List.length H) - List.length H) with 1 by lia. }
  split; [rewrite length_app; simpl; lia|].
  do 3 (split; [done|]). cbn [function].
  destruct (star_wrapper_coroutine pick H [OHandler
              (mkEventHandler (List.length H) pd sp None)] fn fo None d
              Hfn Hu) as (c & Hc & Hev & Ho).
  rewrite (dispatch_coroutine pick _ _ _ c Hc). by rewrite Hev, Ho.
Qed.

Lemma event_spreads_data_witness :
  ∃ a h H',
    event 0 true false example_heap = (Return a, H')
    ∧ H' !! a = Some (OHandler h)
    ∧ List.length H' = 2 + List.length example_heap
    ∧ stop_propagation h = true ∧ prevent_default h = false
    ∧ target h = None
    ∧ dispatch fifo H' (function h) example_data
      = ([ECall None (function h) [VList example_data];
          ECall (Some (function h)) 0 example_data]
           ++ [EUser 0 (VList example_data)],
         Awaited None).
Proof.
  apply (event_spreads_data fifo example_heap 0
           (UserDef None (fun args => ([VList args], None))) true false
           example_data); reflexivity.
Defined.

(** X9. [EventHandler(fn, stop_propagation, prevent_default, target)] on a
    user's callable never raises; the handler it makes has the flags and
    target given and a coroutine function as its function.  Dispatched on
    [d], that function calls [fn] once, with [d] as its one argument, and
    [fn] does what it does on that argument.  When [fn] is an [async def]
    that cannot take [d] as its one argument, the dispatch raises at the
    call what binding the argument raises; otherwise the awaited result is
    [fn]'s, a [StopIteration] leaving a coroutine as the [RuntimeError]
    "coroutine raised StopIteration". *)
Theorem constructor_passes_sequence (pick : Scheduler) (H : Heap) (fn : addr)
    (fo : FuncObj) (sp pd : bool) (t : option string) (d : list Value) :
  H !! fn = Some (OFunc fo) →
  is_user fo = true →
  ∃ a h H',
    EventHandler_init fn sp pd t H = (Return a, H')
    ∧ H' !! a = Some (OHandler h)
    ∧ stop_propagation h = sp ∧ prevent_default h = pd ∧ target h = t
    ∧ iscoroutinefunction H' (function h) = true
    ∧ calls_of fn (dispatch pick H' (function h) d).1 = [[VList d]]
    ∧ actions_of fn (dispatch pick H' (function h) d).1
      = user_events fo [VList d]
    ∧ (dispatch pick H' (function h) d).2
      = match raises_at_call fo [VList d] with
        | Some e => ThrewSync e
        | None => Awaited (pep479 <$> user_result fo [VList d])
        end.
Proof.
  intros Hfn Hu. pose proof (lookup_lt_Some _ _ _ Hfn) as Hlt.
  unfold EventHandler_init, to_event_handler_function. unfold_M.
  unfold iscoroutinefunction at 1. rewrite Hfn.
  destruct fo as [b body|b body| | | |]; try done; simpl.
  - eexists _, _, _. split; [reflexivity|]. split.
    { apply list_lookup_middle. rewrite length_app. simpl. lia. }
    do 3 (split; [done|]). cbn [function]. split.
    { unfold iscoroutinefunction.
      rewrite lookup_app_l by (rewrite length_app; simpl; lia).
      by rewrite list_lookup_middle. }
    rewrite <- app_assoc. cbn [app].
    destruct (call_wrapper_coroutine pick H
                [OHandler (mkEventHandler (List.length H) pd sp t)]
                fn b body None d Hfn) as (c & Hc & Hev & Ho).
    rewrite (dispatch_coroutine pick _ _ _ c Hc). cbn [fst snd].
    rewrite Hev, Ho.
    rewrite calls_of_other, calls_of_same, calls_of_user by lia.
    rewrite !actions_of_call, actions_of_user. done.
  - eexists _, _, _. split; [reflexivity|]. split.
    { by apply list_lookup_middle. }
    do 3 (split; [done|]). cbn [function]. split.
    { unfold iscoroutinefunction. by rewrite lookup_app_l, Hfn. }
    rewrite dispatch_app by done. unfold dispatch.
    rewrite (apply_UserAsyncDef pick H fn b body None _ Hfn).
    destruct (body [VList d]) as [e|c]; cbn [fst snd app].
    { by rewrite calls_of_same. }
    rewrite events_frame, outcome_frame, events_cmap, outcome_cmap.
    rewrite calls_of_same, calls_of_user.
    rewrite actions_of_call, actions_of_user.
    do 2 (split; [done|]).
    destruct (outcome c) as [e|]; [|done]. by destruct e.
Qed.

Lemma constructor_passes_sequence_witness :
  ∃ a h H',
    EventHandler_init 0 false true (Some "t") example_heap = (Return a, H')
    ∧ H' !! a = Some (OHandler h)
    ∧ stop_propagation h = false ∧ prevent_default h = true
    ∧ target h = Some "t"
    ∧ iscoroutinefunction H' (function h) = true
    ∧ calls_of 0 (dispatch fifo H' (function h) example_data).1
      = [[VList example_data]]
    ∧ actions_of 0 (dispatch fifo H' (function h) example_data).1
      = [VList [VList example_data]]
    ∧ (dispatch fifo H' (function h) example_data).2 = Awaited None.
Proof.
  apply (constructor_passes_sequence fifo example_heap 0
           (UserDef None (fun args => ([VList args], None))) false true
           (Some "t") example_data); reflexivity.
Defined.

(** X10. The adapter does not ask whether what it is given can be called:
    given a handler, which cannot, it returns a wrapper all the same, in
    either mode, and the [TypeError] comes at dispatch, through the
    awaitable. *)
Theorem adapter_does_not_validate (pick : Scheduler) (H : Heap) (h : addr)
    (x : EventHandler) (positional_args : bool) (d : list Value) :
  H !! h = Some (OHandler x) →
  ∃ w H',
    to_event_handler_function h positional_args H = (Return w, H')
    ∧ dispatch pick H' w d
      = ([ECall None w [VList d];
          ECall (Some w) h (if positional_args then d else [VList d])],
         Awaited (Some (TypeError "'EventHandler' object is not callable"))).
Proof.
  intros Hh.
  assert (Happly : ∀ caller args,
    apply (sem pick H) caller h args
    = ([ECall caller h args],
       inl (TypeError "'EventHandler' object is not callable"))).
  { intros caller args. unfold apply. by rewrite sem_lookup, Hh. }
  unfold to_event_handler_function. unfold_M.
  unfold iscoroutinefunction. rewrite Hh.
  destruct positional_args; simpl; eexists _, _; (split; [reflexivity|]);
    unfold dispatch; rewrite (apply_new pick H []);
    cbn [den async_def1 fst snd].
  - rewrite events_frame, outcome_frame.
    unfold wrapper_call_star_body. cbn [unpack]. by rewrite Happly.
  - rewrite events_frame, outcome_frame.
    unfold wrapper_call_body. by rewrite Happly.
Qed.

Lemma adapter_does_not_validate_witness :
  ∃ w H',
    to_event_handler_function 6 false example_heap = (Return w, H')
    ∧ dispatch fifo H' w example_data
      = ([ECall None w [VList example_data];
          ECall (Some w) 6 [VList example_data]],
         Awaited (Some (TypeError "'EventHandler' object is not callable"))).
Proof.
  apply (adapter_does_not_validate fifo example_heap 6
           (mkEventHandler 5 false false None) false example_data).
  reflexivity.
Defined.

(** ** What one task does, heard through the group *)

Section Projection.
Context {B : Type}.
Variable q : Event → option B.

Lemma heard_emits (evs : list Event) (k : Coro Event) :
  heard q (emits evs k) = omap q evs ++ heard q k.
Proof. unfold heard. by rewrite events_emits, omap_app. Qed.

Lemma loud_quiet (t : Task) :
  loud q t = 0 ↔ heard q (task_coro t) = [].
Proof.
  unfold loud. destruct (heard q (task_coro t)); split; intros; done || lia.
Qed.

Lemma loud_le_1 (t : Task) : loud q t ≤ 1.
Proof. unfold loud. destruct (heard q (task_coro t)); lia. Qed.

Lemma loudness_cons (t : Task) (tasks : list Task) :
  loudness q (t :: tasks) = loud q t + loudness q tasks.
Proof. done. Qed.

Lemma loudness_delete (tasks : list Task) (i : nat) (t : Task) :
  tasks !! i = Some t →
  loudness q tasks = loud q t + loudness q (delete i tasks).
Proof.
  revert i.
  induction tasks as [|t' tasks IH]; intros [|i] Hi; simplify_eq/=; [done|].
  rewrite !loudness_cons, (IH i Hi). lia.
Qed.

Lemma loudness_snoc (tasks : list Task) (t : Task) :
  loudness q (tasks ++ [t]) = loudness q tasks + loud q t.
Proof.
  induction tasks as [|t' tasks IH]; [unfold loudness; simpl; lia|].
  rewrite <- app_comm_cons, !loudness_cons, IH. lia.
Qed.

Lemma loudness_quiet (tasks : list Task) :
  loudness q tasks = 0 →
  concat ((fun t => heard q (task_coro t)) <$> tasks) = [].
Proof.
  induction tasks as [|t tasks IH]; [done|].
  rewrite loudness_cons, fmap_cons. cbn [concat]. intros Hsum.
  rewrite IH by lia.
  rewrite (proj1 (loud_quiet t)) by lia. done.
Qed.

(** When at most one task is heard, what is heard of the pool is what is
    heard of any one task, then of the others. *)
Lemma heard_pool (tasks : list Task) (i : nat) (t : Task) :
  tasks !! i = Some t →
  loudness q tasks ≤ 1 →
  concat ((fun t => heard q (task_coro t)) <$> tasks)
  = heard q (task_coro t)
    ++ concat ((fun t => heard q (task_coro t)) <$> delete i tasks).
Proof.
  revert i.
  induction tasks as [|t' tasks IH]; intros [|i] Hi Hle; simplify_eq/=;
    [done|].
  rewrite loudness_cons in Hle.
  change (heard q (task_coro t')
          ++ concat ((fun t => heard q (task_coro t)) <$> tasks)
          = heard q (task_coro t)
            ++ heard q (task_coro t')
            ++ concat ((fun t => heard q (task_coro t)) <$> delete i tasks)).
  rewrite (IH i Hi) by lia.
  pose proof (loudness_delete tasks i t Hi) as Hsum.
  destruct (loud q t') eqn:Et'.
  - apply loud_quiet in Et'. by rewrite Et'.
  - assert (loud q t = 0) as Ht by lia.
    apply loud_quiet in Ht. by rewrite Ht.
Qed.

Variable pick : Scheduler.
Variable g : addr.
Hypothesis q_done : ∀ f fate, q (ETaskDone g f fate) = None.

Lemma heard_done (f : addr) (fate : Fate) (k : Coro Event) :
  heard q (Emit (ETaskDone g f fate) k) = heard q k.
Proof. unfold heard. cbn. by rewrite q_done. Qed.

(** When no task raises and at most one of them is heard, what is heard of
    the group is what is heard of that task, in its order. *)
Lemma run_group_heard fuel (tasks : list Task) :
  pool_size tasks ≤ fuel →
  Forall (fun t => outcome (task_coro t) = None) tasks →
  loudness q tasks ≤ 1 →
  heard q (run_group fuel pick g tasks false [])
  = concat ((fun t => heard q (task_coro t)) <$> tasks).
Proof.
  revert tasks.
  induction fuel as [|fuel IH]; intros [|t0 ts] Hfuel Hall Hloud;
    try (by rewrite run_group_nil).
  { unfold pool_size in Hfuel. simpl in Hfuel. lia. }
  destruct (run_group_turn pick g fuel t0 ts false [])
    as (i & t & w & Hi & ->).
  pose proof (Forall_lookup_1 _ _ _ _ Hall Hi) as Ht.
  pose proof (Forall_delete _ _ i Hall) as Hrest.
  pose proof (pool_size_delete _ _ _ Hi) as Hsize.
  pose proof (loudness_delete _ _ _ Hi) as Hsum.
  rewrite (heard_pool _ _ _ Hi Hloud).
  set (rest := delete i (t0 :: ts)) in *.
  pose proof (step_task_spec w false [] t) as Hs.
  destruct (step_task w false [] t) as [evs [[[fate c'] errs']|k]];
    cbn [fst snd].
  - destruct fate as [|e|]; destruct Hs as [_ Hs].
    + destruct Hs as (Hev & _ & -> & ->).
      change (heard q (emits evs
                (Emit (ETaskDone g (task_func t) Completed)
                   (run_group fuel pick g rest false [])))
              = heard q (task_coro t)
                ++ concat ((fun t => heard q (task_coro t)) <$> rest)).
      rewrite heard_emits, heard_done.
      rewrite IH by (done || lia).
      assert (heard q (task_coro t) = omap q evs) as ->; [|done].
      unfold heard. by rewrite Hev.
    + destruct Hs as (Ho & _). congruence.
    + by destruct Hs as (? & _).
  - destruct Hs as (Hev & Ho & Hlt).
    change (heard q (emits evs
              (run_group fuel pick g
                 (rest ++ [mkTask (task_func t) true k]) false []))
            = heard q (task_coro t)
              ++ concat ((fun t => heard q (task_coro t)) <$> rest)).
    assert (Hk : heard q (task_coro t) = omap q evs ++ heard q k).
    { unfold heard. by rewrite Hev, omap_app. }
    assert (Hlk : loud q (mkTask (task_func t) true k) ≤ loud q t).
    { destruct (loud q t) eqn:Et;
        [|pose proof (loud_le_1 (mkTask (task_func t) true k)); lia].
      apply loud_quiet in Et. rewrite Hk in Et.
      apply app_eq_nil in Et as [_ Et]. by apply Nat.eq_le_incl, loud_quiet. }
    rewrite heard_emits, IH.
    + rewrite fmap_app, concat_app. cbn. rewrite app_nil_r.
      change (omap q (events k)) with (heard q k).
      destruct (loud q t) eqn:Et.
      * apply loud_quiet in Et. rewrite Et. rewrite Hk in Et.
        apply app_eq_nil in Et as [-> ->]. simpl. apply app_nil_r.
      * rewrite (loudness_quiet rest) by lia. by rewrite Hk, app_nil_r.
    + rewrite pool_size_snoc. simpl. lia.
    + apply Forall_app. split; [done|]. repeat constructor. simpl.
      congruence.
    + rewrite loudness_snoc. lia.
Qed.
End Projection.

Section TwoTasks.
Variable pick : Scheduler.
Variable g : addr.
Variables t1 t2 : Task.
Hypothesis Ho1 : outcome (task_coro t1) = None.
Hypothesis Ho2 : outcome (task_coro t2) = None.

Lemma two_tasks_heard {B} (q : Event → option B) :
  (∀ f fate, q (ETaskDone g f fate) = None) →
  heard q (task_coro t1) = [] ∨ heard q (task_coro t2) = [] →
  heard q (run_group (pool_size [t1; t2]) pick g [t1; t2] false [])
  = heard q (task_coro t1) ++ heard q (task_coro t2).
Proof using Ho1 Ho2.
  intros Hq Hquiet.
  rewrite (run_group_heard q pick g Hq); [| done | by repeat constructor |].
  - cbn. by rewrite app_nil_r.
  - rewrite !loudness_cons. change (loudness q []) with 0.
    pose proof (loud_le_1 q t1). pose proof (loud_le_1 q t2).
    destruct Hquiet as [Hq1|Hq2].
    + apply loud_quiet in Hq1. lia.
    + apply loud_quiet in Hq2. lia.
Qed.

Lemma calls_of_two_tasks (x : addr) :
  calls_of x (events (task_coro t1)) = []
  ∨ calls_of x (events (task_coro t2)) = [] →
  calls_of x
    (events (run_group (pool_size [t1; t2]) pick g [t1; t2] false []))
  = calls_of x (events (task_coro t1)) ++ calls_of x (events (task_coro t2)).
Proof using Ho1 Ho2. intros Hquiet. by apply two_tasks_heard. Qed.

Lemma actions_of_two_tasks (x : addr) :
  actions_of x (events (task_coro t1)) = []
  ∨ actions_of x (events (task_coro t2)) = [] →
  actions_of x
    (events (run_group (pool_size [t1; t2]) pick g [t1; t2] false []))
  = actions_of x (events (task_coro t1))
    ++ actions_of x (events (task_coro t2)).
Proof using Ho1 Ho2. intros Hquiet. by apply two_tasks_heard. Qed.
End TwoTasks.

(** ** Two decorated callbacks, merged *)

Lemma iscoroutinefunction_star_wrapper (H H2 : Heap) (fn : addr) :
  iscoroutinefunction (H ++ OFunc (star_wrapper H fn) :: H2) (List.length H)
  = true.
Proof.
  unfold iscoroutinefunction. rewrite list_lookup_middle by done.
  unfold star_wrapper. by destruct (iscoroutinefunction H fn).
Qed.

Lemma takes_star_wrapper (H H2 : Heap) (fn : addr) (v : Value) :
  takes (H ++ OFunc (star_wrapper H fn) :: H2) (List.length H) [v] = true.
Proof.
  unfold takes. rewrite list_lookup_middle by done.
  unfold star_wrapper. by destruct (iscoroutinefunction H fn).
Qed.

(** X11. Two user callbacks [f] and [g] decorated with [event] under the
    same flags, then merged: the merge succeeds, into a handler with those
    flags and no target.  When neither callback raises on the data [d],
    dispatching the merged function on [d], under every scheduler, calls
    [f] once and [g] once, each with the elements of [d] as its arguments,
    each does all it does, in its order, and the awaited result is a
    normal return. *)
Theorem decorated_callbacks_merged (pick : Scheduler) (H : Heap)
    (f g : addr) (fof fog : FuncObj) (sp pd : bool) (d : list Value) :
  H !! f = Some (OFunc fof) →
  H !! g = Some (OFunc fog) →
  is_user fof = true →
  is_user fog = true →
  f ≠ g →
  user_result fof d = None →
  user_result fog d = None →
  ∃ m h H',
    (a <- event f sp pd ;;
     b <- event g sp pd ;;
     merge_event_handlers [a; b]) H = (Return m, H')
    ∧ H' !! m = Some (OHandler h)
    ∧ stop_propagation h = sp ∧ prevent_default h = pd ∧ target h = None
    ∧ calls_of f (dispatch pick H' (function h) d).1 = [d]
    ∧ actions_of f (dispatch pick H' (function h) d).1 = user_events fof d
    ∧ calls_of g (dispatch pick H' (function h) d).1 = [d]
    ∧ actions_of g (dispatch pick H' (function h) d).1 = user_events fog d
    ∧ (dispatch pick H' (function h) d).2 = Awaited None.
Proof.
  intros Hf Hg Huf Hug Hne Hrf Hrg.
  pose proof (lookup_lt_Some _ _ _ Hf) as Hltf.
  pose proof (lookup_lt_Some _ _ _ Hg) as Hltg.
  pose (hf := mkEventHandler (List.length H) pd sp None).
  pose (H1 := H ++ [OFunc (star_wrapper H f); OHandler hf]).
  pose (hg := mkEventHandler (List.length H1) pd sp None).
  pose (H2 := H1 ++ [OFunc (star_wrapper H1 g); OHandler hg]).
  assert (Hlen1 : List.length H1 = 2 + List.length H).
  { unfold H1. rewrite length_app. simpl. lia. }
  assert (Hlen2 : List.length H2 = 4 + List.length H).
  { unfold H2. rewrite length_app. simpl. lia. }
  assert (Hg1 : H1 !! g = Some (OFunc fog)).
  { unfold H1. by rewrite lookup_app_l. }
  assert (Hat : handlers_at H2 [S (List.length H); S (List.length H1)]
                            [hf; hg]).
  { repeat constructor.
    - unfold H2. rewrite lookup_app_l by lia.
      unfold H1. rewrite lookup_app_r by lia.
      by replace (S (List.length H) - List.length H) with 1 by lia.
    - unfold H2. rewrite lookup_app_r by lia.
      by replace (S (List.length H1) - List.length H1) with 1 by lia. }
  assert (Hprog :
    (a <- event f sp pd ;; b <- event g sp pd ;; merge_event_handlers [a; b])
      H
    = merge_event_handlers [S (List.length H); S (List.length H1)] H2).
  { unfold bind at 1. rewrite event_makes.
    unfold bind at 1. by rewrite event_makes. }
  rewrite Hprog.
  rewrite (merge_event_handlers_agree H2 _ hf [hg] Hat);
    [|done|repeat constructor; unfold conflicts; simpl; tauto].
  eexists _, _, _. split; [reflexivity|]. split.
  { rewrite lookup_app_r by lia.
    by replace (S (List.length H2) - List.length H2) with 1 by lia. }
  do 3 (split; [done|]).
  cbn [function map hf hg].
  assert (Hfs : Forall (fun x => takes H2 x [VList d] = true)
                       [List.length H; List.length H1]).
  { repeat constructor.
    - unfold H2, H1. rewrite <- app_assoc.
      apply takes_star_wrapper.
    - unfold H2. apply takes_star_wrapper. }
  match goal with
  | |- context [H2 ++ [_; ?o]] =>
      destruct (dispatch_merged pick H2 [o] _ d Hfs) as (cs & Hcs & Hd)
  end.
  apply Forall2_cons_inv_l in Hcs as (c1 & cs' & Hc1 & Hcs & ->).
  apply Forall2_cons_inv_l in Hcs as (c2 & cs'' & Hc2 & Hcs & ->).
  apply Forall2_nil_inv_l in Hcs as ->.
  destruct (star_wrapper_coroutine pick H
              [OHandler hf; OFunc (star_wrapper H1 g); OHandler hg]
              f fof (Some (List.length H2)) d Hf Huf)
    as (c1' & Hc1' & Hev1 & Ho1).
  destruct (star_wrapper_coroutine pick H1 [OHandler hg]
              g fog (Some (List.length H2)) d Hg1 Hug)
    as (c2' & Hc2' & Hev2 & Ho2).
  rewrite Hrf in Ho1. rewrite Hrg in Ho2.
  assert (E2 : H2 = H ++ OFunc (star_wrapper H f)
                      :: [OHandler hf; OFunc (star_wrapper H1 g);
                          OHandler hg]).
  { change H2 with ((H ++ [OFunc (star_wrapper H f); OHandler hf])
                    ++ [OFunc (star_wrapper H1 g); OHandler hg]).
    by rewrite <- app_assoc. }
  assert (c1 = c1') as ->.
  { rewrite <- E2 in Hc1'. rewrite Hc1' in Hc1. by injection Hc1. }
  assert (c2 = c2') as ->.
  { change (H1 ++ OFunc (star_wrapper H1 g) :: [OHandler hg]) with H2
      in Hc2'.
    rewrite Hc2' in Hc2. by injection Hc2. }
  rewrite Hd. cbn [fst snd zip_with].
  set (m := List.length H2) in *.
  set (ta := mkTask (List.length H) false c1') in *.
  set (tb := mkTask (List.length H1) false c2') in *.
  assert (Hoa : outcome (task_coro ta) = None) by exact Ho1.
  assert (Hob : outcome (task_coro tb) = None) by exact Ho2.
  pose proof (run_group_all_complete pick m _ [ta; tb] (le_n _)
                ltac:(by repeat constructor)) as [_ Hout].
  rewrite Hout.
  assert (Hcf1 : calls_of f (events c1') = [d]).
  { rewrite Hev1, calls_of_same, calls_of_user. done. }
  assert (Hcf2 : calls_of f (events c2') = []).
  { rewrite Hev2, calls_of_other, calls_of_user by done. done. }
  assert (Hcg1 : calls_of g (events c1') = []).
  { rewrite Hev1, calls_of_other, calls_of_user by done. done. }
  assert (Hcg2 : calls_of g (events c2') = [d]).
  { rewrite Hev2, calls_of_same, calls_of_user. done. }
  assert (Haf1 : actions_of f (events c1') = user_events fof d).
  { rewrite Hev1, actions_of_call, actions_of_user. done. }
  assert (Haf2 : actions_of f (events c2') = []).
  { rewrite Hev2, actions_of_call, actions_of_other by done. done. }
  assert (Hag1 : actions_of g (events c1') = []).
  { rewrite Hev1, actions_of_call, actions_of_other by done. done. }
  assert (Hag2 : actions_of g (events c2') = user_events fog d).
  { rewrite Hev2, actions_of_call, actions_of_user. done. }
  cbn [fmap list_fmap app].
  rewrite !calls_of_other by lia.
  rewrite !actions_of_call.
  rewrite !(calls_of_two_tasks pick m ta tb Hoa Hob),
          !(actions_of_two_tasks pick m ta tb Hoa Hob);
    cbn [task_coro ta tb]; rewrite ?Hcf1, ?Hcf2, ?Hcg1, ?Hcg2,
                                   ?Haf1, ?Haf2, ?Hag1, ?Hag2;
    auto using app_nil_r.
Qed.

Lemma decorated_callbacks_merged_witness :
  ∃ m h H',
    (a <- event 0 true false ;;
     b <- event 1 true false ;;
     merge_event_handlers [a; b]) example_heap = (Return m, H')
    ∧ H' !! m = Some (OHandler h)
    ∧ stop_propagation h = true ∧ prevent_default h = false
    ∧ target h = None
    ∧ calls_of 0 (dispatch fifo H' (function h) example_data).1
      = [example_data]
    ∧ actions_of 0 (dispatch fifo H' (function h) example_data).1
      = [VList example_data]
    ∧ calls_of 1 (dispatch fifo H' (function h) example_data).1
      = [example_data]
    ∧ actions_of 1 (dispatch fifo H' (function h) example_data).1
      = [VStr "slept"]
    ∧ (dispatch fifo H' (function h) example_data).2 = Awaited None.
Proof.
  apply (decorated_callbacks_merged fifo example_heap 0 1
           (UserDef None (fun args => ([VList args], None)))
           (UserAsyncDef None
              (fun _ => inr (Suspend (Emit (VStr "slept") Ret))))
           true false example_data); try reflexivity.
  discriminate.
Defined.

(** ** The store stays well formed, under every operation *)

Lemma event_wf (H : Heap) (fn : addr) (sp pd : bool) :
  wf_heap H = true →
  fn < List.length H →
  wf_heap (event fn sp pd H).2 = true.
Proof.
  intros Hwf Hlt. unfold event. unfold bind at 1.
  destruct (to_event_handler_function fn true H) as [[w|e] H1] eqn:Ew.
  - destruct (to_event_handler_function_wf H H1 fn w true Hwf Hlt Ew)
      as (Hwf1 & Hw & _).
    destruct (EventHandler_init w sp pd None H1) as [[a|e] H2] eqn:Ea.
    + by destruct (EventHandler_init_wf H1 H2 w a sp pd None Hwf1
                     (iscoroutinefunction_lt _ _ Hw) Ea).
    + revert Ea. unfold EventHandler_init, to_event_handler_function.
      unfold_M. rewrite Hw. done.
  - revert Ew. unfold to_event_handler_function. unfold_M.
    by destruct (iscoroutinefunction H fn).
Qed.

(** X12. Every operation of the module leaves a well-formed store well
    formed: [EventHandler], [event] and [merge_event_handler_funcs] when
    what they are given is in the store, [merge_event_handlers] whatever it
    is given.  So the function of every handler they make is a coroutine
    function, and every closure refers to objects made before it. *)
Theorem operations_keep_store_well_formed (H : Heap) :
  wf_heap H = true →
  (∀ fn sp pd t, fn < List.length H →
     wf_heap (EventHandler_init fn sp pd t H).2 = true)
  ∧ (∀ fn sp pd, fn < List.length H → wf_heap (event fn sp pd H).2 = true)
  ∧ (∀ fs, Forall (fun f => f < List.length H) fs →
       wf_heap (merge_event_handler_funcs fs H).2 = true)
  ∧ (∀ hs, wf_heap (merge_event_handlers hs H).2 = true).
Proof.
  intros Hwf. split; [|split; [|split]].
  - intros fn sp pd t Hlt.
    destruct (EventHandler_init fn sp pd t H) as [[a|e] H'] eqn:Ea.
    + by destruct (EventHandler_init_wf H H' fn a sp pd t Hwf Hlt Ea).
    + revert Ea. unfold EventHandler_init, to_event_handler_function.
      unfold_M. by destruct (iscoroutinefunction H fn).
  - intros fn sp pd Hlt. by apply event_wf.
  - intros [|f1 [|f2 fs]] Hfs; try done.
    cbn [merge_event_handler_funcs new snd].
    apply wf_heap_snoc; [done|]. unfold wf_obj.
    rewrite andb_true_r. apply forallb_forall. intros f Hf.
    apply bool_decide_eq_true. rewrite Forall_forall in Hfs.
    by apply Hfs, list_elem_of_In.
  - intros hs.
    destruct hs as [|a0 [|a1 hs]]; try done.
    destruct (merge_event_handlers_cases H a0 a1 hs)
      as [(first & rest & Hat & Hne & Hagree)|[e ->]]; [|done].
    by apply (merge_event_handlers_wf H _ first rest).
Qed.

Lemma operations_keep_store_well_formed_witness :
  (∀ fn sp pd t, fn < List.length example_heap →
     wf_heap (EventHandler_init fn sp pd t example_heap).2 = true)
  ∧ (∀ fn sp pd, fn < List.length example_heap →
       wf_heap (event fn sp pd example_heap).2 = true)
  ∧ (∀ fs, Forall (fun f => f < List.length example_heap) fs →
       wf_heap (merge_event_handler_funcs fs example_heap).2 = true)
  ∧ (∀ hs, wf_heap (merge_event_handlers hs example_heap).2 = true).
Proof.
  apply (operations_keep_store_well_formed example_heap). reflexivity.
Defined.

(** ** Merged coroutine functions of the user *)

Section UserTasks.
Variable pick : Scheduler.
Variable H : Heap.
Variable m : addr.
Variable d : list Value.

Lemma started_for_tasks (fs : list addr) (cs : list (Coro Event)) :
  Forall (fun f => ∃ b body,
            H !! f = Some (OFunc (UserAsyncDef b body))
            ∧ user_result (UserAsyncDef b body) [VList d] = None) fs →
  Forall2 (fun f c => apply (sem pick H) (Some m) f [VList d]
                      = ([ECall (Some m) f [VList d]], inr (RCoro c)))
          fs cs →
  Forall2 (started_for H d) fs cs.
Proof.
  intros Hfs Hcs. induction Hcs as [|f c fs cs Hc _ IH]; [constructor|].
  apply Forall_cons in Hfs as [(b & body & Hf & Ho) Hfs].
  constructor; [|by apply IH].
  rewrite (apply_UserAsyncDef pick H f b body) in Hc by done.
  cbn [user_result] in Ho.
  destruct (body [VList d]) as [e|c0] eqn:Eb; [done|].
  exists b, body, c0. repeat split; [done..|congruence|].
  by destruct (outcome c0).
Qed.

Lemma started_for_outcome (fs : list addr) (cs : list (Coro Event)) :
  Forall2 (started_for H d) fs cs →
  Forall (fun t => outcome (task_coro t) = None)
         (zip_with (fun f c => mkTask f false c) fs cs).
Proof.
  induction 1 as [|f c fs cs (b & body & c0 & _ & _ & -> & Ho) _ IH];
    [constructor|].
  constructor; [|done]. simpl.
  by rewrite outcome_frame, outcome_cmap, Ho.
Qed.

(** The tasks make no call. *)
Lemma started_for_calls (x : addr) (fs : list addr) (cs : list (Coro Event)) :
  Forall2 (started_for H d) fs cs →
  concat ((fun t => calls_of x (events (task_coro t)))
            <$> zip_with (fun f c => mkTask f false c) fs cs) = []
  ∧ loudness (fun ev => match ev with
                        | ECall _ f args =>
                            if bool_decide (f = x) then Some args else None
                        | _ => None
                        end)
             (zip_with (fun f c => mkTask f false c) fs cs) = 0.
Proof.
  induction 1
    as [|f c fs cs (b & body & c0 & _ & _ & -> & Ho) _ [IH1 IH2]]; [done|].
  cbn [zip_with]. rewrite fmap_cons, loudness_cons. cbn [concat task_coro].
  rewrite IH1, IH2.
  assert (Hq : calls_of x (events (coroutine_frame (cmap (EUser f) c0)))
               = []).
  { rewrite events_frame, events_cmap. apply calls_of_user. }
  split; [by rewrite Hq|].
  rewrite Nat.add_0_r. apply loud_quiet. exact Hq.
Qed.

(** Of the tasks, only that of [x] does what [x] does. *)
Lemma started_for_actions (x : addr) (fs : list addr)
    (cs : list (Coro Event)) :
  Forall2 (started_for H d) fs cs →
  NoDup fs →
  let q := fun ev => match ev with
                     | EUser f v =>
                         if bool_decide (f = x) then Some v else None
                     | _ => None
                     end in
  let tasks := zip_with (fun f c => mkTask f false c) fs cs in
  loudness q tasks ≤ 1
  ∧ (x ∉ fs → loudness q tasks = 0)
  ∧ ∀ b body, x ∈ fs → H !! x = Some (OFunc (UserAsyncDef b body)) →
              concat ((fun t => actions_of x (events (task_coro t)))
                        <$> tasks)
              = user_events (UserAsyncDef b body) [VList d].
Proof.
  intros Hcs Hnd q. cbn zeta.
  induction Hcs as [|f c fs cs (b & body & c0 & Hf & Hb & -> & Ho) _ IH].
  { split; [unfold loudness; simpl; lia|]. split; [done|].
    intros b body Hx. by apply elem_of_nil in Hx. }
  apply NoDup_cons in Hnd as [Hnotin Hnd].
  destruct (IH Hnd) as (IH1 & IH2 & IH3). clear IH.
  cbn [zip_with]. rewrite fmap_cons, loudness_cons. cbn [concat task_coro].
  set (c' := coroutine_frame (cmap (EUser f) c0)).
  assert (Hev : actions_of x (events c')
                = if bool_decide (f = x) then events c0 else []).
  { unfold c'. rewrite events_frame, events_cmap. case_bool_decide as Hfx.
    - subst. apply actions_of_user.
    - by apply actions_of_other. }
  pose proof (loud_le_1 q (mkTask f false c')) as Hle.
  split; [|split].
  - destruct (decide (f = x)) as [->|Hfx].
    + rewrite (IH2 Hnotin). lia.
    + assert (loud q (mkTask f false c') = 0) as ->; [|lia].
      apply loud_quiet. change (actions_of x (events c') = []).
      by rewrite Hev, bool_decide_false.
  - intros Hx. apply not_elem_of_cons in Hx as [Hxf Hx].
    rewrite (IH2 Hx).
    assert (loud q (mkTask f false c') = 0) as ->; [|lia].
    apply loud_quiet. change (actions_of x (events c') = []).
    by rewrite Hev, bool_decide_false.
  - intros b' body' Hx Hbody'. rewrite Hev.
    destruct (decide (f = x)) as [->|Hfx].
    + rewrite bool_decide_true by done.
      assert (body' = body) as -> by congruence.
      cbn [user_events]. rewrite Hb.
      change (concat ((fun t => actions_of x (events (task_coro t)))
                        <$> zip_with (fun f c => mkTask f false c) fs cs))
        with (concat ((fun t => heard q (task_coro t))
                        <$> zip_with (fun f c => mkTask f false c) fs cs)).
      rewrite (loudness_quiet q) by (by apply IH2). by rewrite app_nil_r.
    + rewrite bool_decide_false by done.
      apply elem_of_cons in Hx as [Hx|Hx]; [congruence|].
      by apply IH3.
Qed.
End UserTasks.

Lemma calls_of_starts_other (m x : addr) (fs : list addr) (v : Value) :
  x ∉ fs → calls_of x ((fun f => ECall (Some m) f [v]) <$> fs) = [].
Proof.
  induction fs as [|f fs IH]; [done|].
  intros [Hxf Hx]%not_elem_of_cons.
  rewrite fmap_cons, calls_of_other by done. by apply IH.
Qed.

Lemma calls_of_starts (m x : addr) (fs : list addr) (v : Value) :
  NoDup fs → x ∈ fs →
  calls_of x ((fun f => ECall (Some m) f [v]) <$> fs) = [[v]].
Proof.
  induction fs as [|f fs IH]; intros Hnd Hx; [by apply elem_of_nil in Hx|].
  apply NoDup_cons in Hnd as [Hnotin Hnd]. rewrite fmap_cons.
  destruct (decide (f = x)) as [->|Hfx].
  - by rewrite calls_of_same, calls_of_starts_other.
  - rewrite calls_of_other by done.
    apply elem_of_cons in Hx as [Hx|Hx]; [congruence|]. by apply IH.
Qed.

Lemma actions_of_starts (m x : addr) (fs : list addr) (v : Value) :
  actions_of x ((fun f => ECall (Some m) f [v]) <$> fs) = [].
Proof. apply omap_none, Forall_fmap, Forall_forall. done. Qed.

(** X13. Two or more different [async def]s of the user, merged with
    [merge_event_handler_funcs] and dispatched on [d], none of them raising
    on [d]: under every scheduler, each one is called once, with [d] as its
    one argument, all it does is in the trace in the order it did it,
    however the others come in between, and the merged function returns. *)
Theorem merged_functions_each_in_order (pick : Scheduler) (H : Heap)
    (fs : list addr) (d : list Value) :
  2 ≤ List.length fs →
  NoDup fs →
  Forall (fun f => ∃ b body,
            H !! f = Some (OFunc (UserAsyncDef b body))
            ∧ user_result (UserAsyncDef b body) [VList d] = None) fs →
  ∃ m H',
    merge_event_handler_funcs fs H = (Return m, H')
    ∧ (dispatch pick H' m d).2 = Awaited None
    ∧ ∀ f b body,
        f ∈ fs →
        H !! f = Some (OFunc (UserAsyncDef b body)) →
        calls_of f (dispatch pick H' m d).1 = [[VList d]]
        ∧ actions_of f (dispatch pick H' m d).1
          = user_events (UserAsyncDef b body) [VList d].
Proof.
  intros Hlen Hnd Huser.
  assert (Hfs : Forall (fun f => takes H f [VList d] = true) fs).
  { eapply Forall_impl; [exact Huser|]. intros f (b & body & Hf & Ho).
    unfold takes. rewrite Hf. cbn [user_result] in Ho.
    by destruct (body [VList d]). }
  destruct (dispatch_merged pick H [] fs d Hfs) as (cs & Hcs & Hd).
  pose proof (started_for_tasks pick H _ d fs cs Huser Hcs) as Hst.
  pose proof (started_for_outcome H d fs cs Hst) as Hout.
  eexists _, _. split.
  { destruct fs as [|f1 [|f2 fs']]; simpl in Hlen; [lia..|]. reflexivity. }
  rewrite Hd. cbn [fst snd].
  set (tasks := zip_with (fun f c => mkTask f false c) fs cs) in *.
  split.
  { by destruct (run_group_all_complete pick (List.length H) _ tasks
                   (le_n _) Hout) as [_ ->]. }
  intros f b body Hin Hf.
  pose proof (lookup_lt_Some _ _ _ Hf) as Hlt.
  destruct (started_for_calls H d f fs cs Hst) as [Hc0 Hc1].
  destruct (started_for_actions H d f fs cs Hst Hnd) as (Ha1 & _ & Ha3).
  rewrite calls_of_other by lia. rewrite actions_of_call.
  rewrite calls_of_app, actions_of_app.
  rewrite calls_of_starts, actions_of_starts by done.
  split.
  - fold tasks in Hc1.
    assert (Hc1' : loudness
      (fun ev => match ev with
                 | ECall _ f0 args =>
                     if bool_decide (f0 = f) then Some args else None
                 | _ => None
                 end) tasks ≤ 1) by (rewrite Hc1; lia).
    pose proof (run_group_heard _ pick (List.length H)
                  (fun _ _ => eq_refl) _ tasks (le_n _) Hout Hc1') as Hh.
    unfold heard in Hh. unfold calls_of. rewrite Hh.
    fold tasks in Hc0. unfold calls_of in Hc0. by rewrite Hc0.
  - pose proof (run_group_heard _ pick (List.length H)
                  (fun _ _ => eq_refl) _ tasks (le_n _) Hout Ha1) as Hh.
    unfold heard in Hh. unfold actions_of. rewrite Hh.
    specialize (Ha3 b body Hin Hf). fold tasks in Ha3.
    unfold actions_of in Ha3. by rewrite Ha3.
Qed.

Lemma merged_functions_each_in_order_witness :
  ∃ m H',
    merge_event_handler_funcs [1; 2] example_heap = (Return m, H')
    ∧ (dispatch fifo H' m example_data).2 = Awaited None
    ∧ ∀ f b body,
        f ∈ [1; 2] →
        example_heap !! f = Some (OFunc (UserAsyncDef b body)) →
        calls_of f (dispatch fifo H' m example_data).1
        = [[VList example_data]]
        ∧ actions_of f (dispatch fifo H' m example_data).1
          = user_events (UserAsyncDef b body) [VList example_data].
Proof.
  apply (merged_functions_each_in_order fifo example_heap [1; 2]
           example_data).
  - simpl. lia.
  - by apply (bool_decide_unpack (NoDup [1; 2])).
  - repeat constructor; eexists _, _; split; reflexivity.
Defined.

(** ** The errors of the tasks *)

Lemma raised_app (l1 l2 : list (addr * Fate)) :
  raised (l1 ++ l2) = raised l1 ++ raised l2.
Proof. apply omap_app. Qed.

Lemma tasks_done_done (g f : addr) (fate : Fate) (tr : list Event) :
  tasks_done g (ETaskDone g f fate :: tr) = (f, fate) :: tasks_done g tr.
Proof. unfold tasks_done. cbn. by rewrite bool_decide_true. Qed.

Lemma step_task_first_raise (woken cancelled : bool) (errs : list Exc)
    (t : Task) (e : Exc) :
  task_started t = false →
  (turn (task_coro t)).2 = Failed e →
  (step_task woken cancelled errs t).2 = inl (Raised e, true, errs ++ [e]).
Proof.
  intros Hs. unfold step_task. rewrite Hs, andb_false_r. simpl.
  destruct (turn (task_coro t)) as [evs [|e'|k]]; simpl; try done.
  by intros [= ->].
Qed.

Section Errors.
Variable pick : Scheduler.
Variable g : addr.

(** The group ends with the errors it had and those of the tasks that
    raised, in the order they ended. *)
Lemma run_group_outcome fuel (tasks : list Task) cancelled errs :
  pool_size tasks ≤ fuel →
  Forall (fun t => tasks_done g (events (task_coro t)) = []) tasks →
  outcome (run_group fuel pick g tasks cancelled errs)
  = group_outcome
      (errs ++ raised (tasks_done g
                         (events (run_group fuel pick g tasks cancelled
                                    errs)))).
Proof.
  revert tasks cancelled errs.
  induction fuel as [|fuel IH]; intros [|t0 ts] cancelled errs Hfuel Hall;
    try (rewrite run_group_nil; destruct errs; simpl;
         rewrite ?app_nil_r; done).
  { unfold pool_size in Hfuel. simpl in Hfuel. lia. }
  destruct (run_group_turn pick g fuel t0 ts cancelled errs)
    as (i & t & w & Hi & ->).
  pose proof (Forall_lookup_1 _ _ _ _ Hall Hi) as Ht. cbv beta in Ht.
  pose proof (Forall_delete _ _ i Hall) as Hrest.
  pose proof (pool_size_delete _ _ _ Hi) as Hsize.
  pose proof (step_task_spec w cancelled errs t) as Hs.
  destruct (step_task w cancelled errs t) as [evs [[[fate c'] errs']|k]];
    cbn [fst snd events outcome];
    rewrite events_emits, outcome_emits, tasks_done_app.
  - destruct Hs as [[more Hev] Hs].
    rewrite Hev, tasks_done_app in Ht. apply app_eq_nil in Ht as [-> _].
    cbn [app events outcome]. rewrite tasks_done_done.
    rewrite IH by (done || lia).
    destruct fate as [|e|].
    + by destruct Hs as (_ & _ & _ & ->).
    + destruct Hs as (_ & _ & ->). by rewrite <- app_assoc.
    + by destruct Hs as (_ & _ & _ & ->).
  - destruct Hs as (Hev & Ho & Hlt).
    rewrite Hev, tasks_done_app in Ht. apply app_eq_nil in Ht as [-> Hk].
    cbn [app]. apply IH.
    + rewrite pool_size_snoc. simpl. lia.
    + apply Forall_app. split; [done|]. by repeat constructor.
Qed.

(** How a task ends is how its coroutine does. *)
Lemma run_group_fates fuel (tasks : list Task) cancelled errs :
  Forall (fun t => tasks_done g (events (task_coro t)) = []) tasks →
  Forall (fun x => ∃ t, t ∈ tasks ∧ task_func t = x.1
                        ∧ ends_as (task_coro t) x.2)
         (tasks_done g (events (run_group fuel pick g tasks cancelled errs))).
Proof.
  revert tasks cancelled errs.
  induction fuel as [|fuel IH]; intros [|t0 ts] cancelled errs Hall;
    try (rewrite run_group_nil; destruct errs; constructor).
  { constructor. }
  destruct (run_group_turn pick g fuel t0 ts cancelled errs)
    as (i & t & w & Hi & ->).
  pose proof (Forall_lookup_1 _ _ _ _ Hall Hi) as Ht. cbv beta in Ht.
  pose proof (Forall_delete _ _ i Hall) as Hrest.
  pose proof (list_elem_of_lookup_2 _ _ _ Hi) as Hin.
  assert (Hsub : ∀ t', t' ∈ delete i (t0 :: ts) → t' ∈ t0 :: ts).
  { intros t' Ht'. rewrite (delete_Permutation _ _ _ Hi).
    by apply list_elem_of_further. }
  pose proof (step_task_spec w cancelled errs t) as Hs.
  destruct (step_task w cancelled errs t) as [evs [[[fate c'] errs']|k]];
    cbn [fst snd events]; rewrite events_emits, tasks_done_app.
  - destruct Hs as [[more Hev] Hs].
    rewrite Hev, tasks_done_app in Ht. apply app_eq_nil in Ht as [-> _].
    cbn [app events]. rewrite tasks_done_done. constructor.
    + exists t. split; [done|]. split; [done|]. cbn [snd].
      destruct fate as [|e|]; cbn; [by destruct Hs as (_ & ? & _)
                                   |by destruct Hs as (? & _)|done].
    + eapply Forall_impl; [by apply IH|].
      intros x (t' & Ht' & Hf & He). exists t'. auto.
  - destruct Hs as (Hev & Ho & Hlt).
    rewrite Hev, tasks_done_app in Ht. apply app_eq_nil in Ht as [-> Hk].
    cbn [app].
    eapply Forall_impl.
    { apply IH. apply Forall_app. split; [done|]. by repeat constructor. }
    intros x (t' & Ht' & Hf & He).
    apply elem_of_app in Ht' as [Ht'|Ht'].
    + exists t'. auto.
    + apply list_elem_of_singleton in Ht' as ->. exists t.
      split; [done|]. split; [done|]. cbn [task_coro] in He.
      unfold ends_as in *. destruct x.2; congruence.
Qed.

(** A task that raises in its first turn ends as raised, whatever the
    others do: nothing cancels it before it has run. *)
Lemma run_group_first_raise fuel (tasks : list Task) cancelled errs
    (t : Task) (e : Exc) :
  pool_size tasks ≤ fuel →
  Forall (fun t => tasks_done g (events (task_coro t)) = []) tasks →
  t ∈ tasks →
  task_started t = false →
  (turn (task_coro t)).2 = Failed e →
  (task_func t, Raised e)
  ∈ tasks_done g (events (run_group fuel pick g tasks cancelled errs)).
Proof.
  revert tasks cancelled errs.
  induction fuel as [|fuel IH];
    intros [|t0 ts] cancelled errs Hfuel Hall Hin Hst He;
    try (by apply elem_of_nil in Hin).
  { unfold pool_size in Hfuel. simpl in Hfuel. lia. }
  destruct (run_group_turn pick g fuel t0 ts cancelled errs)
    as (i & t' & w & Hi & ->).
  pose proof (Forall_lookup_1 _ _ _ _ Hall Hi) as Ht. cbv beta in Ht.
  pose proof (Forall_delete _ _ i Hall) as Hrest.
  pose proof (pool_size_delete _ _ _ Hi) as Hsize.
  rewrite (delete_Permutation _ _ _ Hi) in Hin.
  apply elem_of_cons in Hin as [->|Hin].
  - rewrite (step_task_first_raise w cancelled errs t' e Hst He).
    cbn [events]. rewrite events_emits, tasks_done_app. cbn [events].
    rewrite tasks_done_done. apply elem_of_app. right.
    apply list_elem_of_here.
  - pose proof (step_task_spec w cancelled errs t') as Hs.
    destruct (step_task w cancelled errs t') as [evs [[[fate c'] errs']|k]];
      cbn [fst snd events]; rewrite events_emits, tasks_done_app;
      apply elem_of_app; right.
    + cbn [events]. rewrite tasks_done_done. apply list_elem_of_further.
      apply IH; [lia|done..].
    + destruct Hs as (Hev & Ho & Hlt).
      rewrite Hev, tasks_done_app in Ht. apply app_eq_nil in Ht as [_ Hk].
      apply IH; [rewrite pool_size_snoc; simpl; lia| |by apply elem_of_app;
                                                      left|done..].
      apply Forall_app. split; [done|]. by repeat constructor.
Qed.
End Errors.

(** X14. The function that [merge_event_handler_funcs] makes of two or
    more handler functions, dispatched on [d], under every scheduler:
    its awaitable returns when no task ended by raising, and fails
    otherwise with one exception group that holds the error of every task
    that raised, in the order the tasks ended.  A task ends as raised with
    [e] only if the coroutine of its function raises [e], and as completed
    only if that coroutine returns; and a function whose coroutine raises
    before its first suspension point always has its error in the group,
    whatever the other functions do. *)
Theorem merged_function_carries_errors (pick : Scheduler) (H : Heap)
    (fs : list addr) (d : list Value) :
  wf_heap H = true →
  2 ≤ List.length fs →
  Forall (fun f => takes H f [VList d] = true) fs →
  ∃ m H' cs,
    merge_event_handler_funcs fs H = (Return m, H')
    ∧ Forall2 (fun f c => apply (sem pick H') (Some m) f [VList d]
                          = ([ECall (Some m) f [VList d]], inr (RCoro c)))
              fs cs
    ∧ (dispatch pick H' m d).2
      = Awaited (group_outcome
                   (raised (tasks_done m (dispatch pick H' m d).1)))
    ∧ Forall (fun x => ∃ c, (x.1, c) ∈ zip fs cs ∧ ends_as c x.2)
             (tasks_done m (dispatch pick H' m d).1)
    ∧ Forall (fun fc => ∀ e, (turn fc.2).2 = Failed e →
                             (fc.1, Raised e)
                             ∈ tasks_done m (dispatch pick H' m d).1)
             (zip fs cs).
Proof.
  intros Hwf Hlen Hfs.
  pose proof (wf_heap_closed H Hwf) as Hclosed.
  pose proof (Forall_takes_iscoroutinefunction _ _ _ Hfs) as Hco.
  destruct (dispatch_merged pick H [] fs d Hfs) as (cs & Hcs & Hd).
  pose proof (started_tasks pick H (List.length H) (VList d) fs cs
                Hclosed (le_n _) Hco Hcs)
    as (_ & _ & _ & Htasks & _ & _).
  pose proof (tasks_quiet (List.length H) _ Htasks) as Hquiet.
  eexists _, _, cs. split.
  { destruct fs as [|f1 [|f2 fs']]; simpl in Hlen; [lia..|]. reflexivity. }
  split.
  { eapply Forall2_impl; [exact Hcs|]. intros f c Hc. simpl in Hc.
    rewrite apply_sem_app; [done|].
    unfold apply in Hc. rewrite sem_lookup in Hc.
    destruct (H !! f) eqn:Ef; [by apply lookup_lt_Some in Ef|done]. }
  rewrite Hd. cbn [fst snd].
  rewrite tasks_done_call, tasks_done_app, tasks_done_started. cbn [app].
  set (tasks := zip_with (fun f c => mkTask f false c) fs cs) in *.
  assert (Htz : tasks = (fun fc => mkTask fc.1 false fc.2) <$> zip fs cs).
  { unfold tasks. clear. revert cs.
    induction fs as [|f fs IH]; intros [|c cs]; simpl; try done.
    by rewrite IH. }
  split; [|split].
  - rewrite (run_group_outcome pick (List.length H) _ tasks false [])
      by done.
    cbn [app]. by destruct (raised _).
  - eapply Forall_impl;
      [apply (run_group_fates pick (List.length H) _ tasks false []); done|].
    intros x (t & Ht & Hf & He). rewrite Htz in Ht.
    apply list_elem_of_fmap in Ht as ([f c] & -> & Hfc).
    exists c. by rewrite <- Hf.
  - apply Forall_forall. intros [f c] Hfc e He.
    apply (run_group_first_raise pick (List.length H) _ tasks false []
             (mkTask f false c) e); try done.
    rewrite Htz. apply list_elem_of_fmap. by exists (f, c).
Qed.

Lemma merged_function_carries_errors_witness :
  ∃ m H' cs,
    merge_event_handler_funcs [4; 2] example_heap = (Return m, H')
    ∧ Forall2 (fun f c => apply (sem eager H') (Some m) f
                            [VList example_data]
                          = ([ECall (Some m) f [VList example_data]],
                             inr (RCoro c)))
              [4; 2] cs
    ∧ (dispatch eager H' m example_data).2
      = Awaited (group_outcome
                   (raised (tasks_done m (dispatch eager H' m
                                            example_data).1)))
    ∧ Forall (fun x => ∃ c, (x.1, c) ∈ zip [4; 2] cs ∧ ends_as c x.2)
             (tasks_done m (dispatch eager H' m example_data).1)
    ∧ Forall (fun fc => ∀ e, (turn fc.2).2 = Failed e →
                             (fc.1, Raised e)
                             ∈ tasks_done m (dispatch eager H' m
                                               example_data).1)
             (zip [4; 2] cs).
Proof.
  apply (merged_function_carries_errors eager example_heap [4; 2]
           example_data).
  - reflexivity.
  - simpl. lia.
  - repeat constructor.
Defined.

(** Two tasks that sleep and then raise.  When the loop finds the second
    one waiting, it is cancelled and the group holds one error; when the
    second one had been woken before the first raised, it runs on, raises
    too, and the group holds both. *)
Example waiting_task_is_cancelled :
  dispatch fifo (example_heap ++ [OFunc (await_all_event_handlers [4; 4])])
    10 example_data
  = ([ECall None 10 [VList example_data];
      ECall (Some 10) 4 [VList example_data];
      ECall (Some 10) 4 [VList example_data];
      ETaskDone 10 4 (Raised KeyError);
      ETaskDone 10 4 Cancelled],
     Awaited (Some (ExceptionGroup "unhandled errors in a TaskGroup"
                      [KeyError]))).
Proof. reflexivity. Qed.

Example woken_task_runs_on :
  dispatch eager (example_heap ++ [OFunc (await_all_event_handlers [4; 4])])
    10 example_data
  = ([ECall None 10 [VList example_data];
      ECall (Some 10) 4 [VList example_data];
      ECall (Some 10) 4 [VList example_data];
      ETaskDone 10 4 (Raised KeyError);
      ETaskDone 10 4 (Raised KeyError)],
     Awaited (Some (ExceptionGroup "unhandled errors in a TaskGroup"
                      [KeyError; KeyError]))).
Proof. reflexivity. Qed.

(** A function that cannot take the data: the call in [start_soon] raises,
    the loop of lines 215-216 ends there, and the functions after it are
    never called. *)
Example function_that_cannot_take_the_data :
  takes example_methods 0 [VList example_data] = false
  ∧ dispatch fifo
      (example_methods ++ [OFunc (await_all_event_handlers [0; 2])])
      6 example_data
    = ([ECall None 6 [VList example_data];
        ECall (Some 6) 0 [VList example_data]],
       Awaited
         (Some (ExceptionGroup "unhandled errors in a TaskGroup"
                  [TypeError
                     "zero() takes 0 positional arguments but 1 was given"]))).
Proof. split; reflexivity. Qed.
